(** * The per-guild playback queue and session registry of the music cog

    A shallow embedding of [src/bot/music.py]: the [MusicQueue] class
    (lines 131-167) as pure functions that return the method's result
    together with the mutated object; the [Music] cog (lines 169-346), with
    its registry of queues, the voice clients, the completion callback,
    [_join_voice] and the [play] command, as functions on an explicit cog
    state with a store of queue objects; the resolution of a search in
    [YTDLSource] (lines 66-129) over what youtube-dl and the Spotify client
    answer; and the helpers of [src/bot/utils.py] and [src/bot/config.py]
    the cog calls. *)

From stdpp Require Import base option list gmap strings pretty.
From Stdlib Require Import ZArith Lia.

Local Open Scope Z_scope.
Local Open Scope list_scope.

(** ** Tracks

    A duration as youtube-dl reports it: a number of seconds that is an
    [int] or a [float]. Of a float the cog reads its truth value only (it is
    falsy exactly when it is zero); its one other use, the format [:02d] in
    [Utils.format_duration], raises [ValueError] for every float. *)
Inductive Seconds : Type :=
  | IntSeconds (n : Z)
  | FloatSeconds (nonzero : bool).

#[global] Instance Seconds_eq_dec : EqDecision Seconds.
Proof. solve_decision. Defined.

(** [YTDLSource.__init__] copies five entries of the resolver's [data] with
    [data.get], so each of them may be [None]. The class defines neither
    [__bool__] nor [__len__]: an instance is always truthy, and the only
    falsy value of an [Optional[YTDLSource]] is [None]. *)

Record YTDLSource : Type := MkSource {
  title : option string;
  url : option string;
  duration : option Seconds;
  thumbnail : option string;
  uploader : option string
}.

#[global] Instance YTDLSource_eq_dec : EqDecision YTDLSource.
Proof. solve_decision. Defined.

(** ** MusicQueue *)

Record MusicQueue : Type := MkMusicQueue {
  queue : list YTDLSource;
  current : option YTDLSource;
  loop_song : bool;
  loop_queue : bool
}.

(** [MusicQueue.__init__] *)
Definition new_queue : MusicQueue :=
  {| queue := []; current := None; loop_song := false; loop_queue := false |}.

#[global] Instance MusicQueue_inhabited : Inhabited MusicQueue :=
  populate new_queue.

(** [MusicQueue.add]: [self.queue.append(source)] *)
Definition add (source : YTDLSource) (self : MusicQueue) : MusicQueue :=
  {| queue := queue self ++ [source];
     current := current self;
     loop_song := loop_song self;
     loop_queue := loop_queue self |}.

(** [MusicQueue.get_next]. The first [match] is
    [if self.loop_song and self.current: return self.current]; the second is
    [if not self.queue: return None], which returns before any attribute is
    assigned; [queue.pop(0)] removes the head; the inner [match] is
    [if self.loop_queue and self.current: self.queue.append(self.current)]. *)
Definition get_next (self : MusicQueue) : option YTDLSource * MusicQueue :=
  match loop_song self, current self with
  | true, Some cur => (Some cur, self)
  | _, _ =>
      match queue self with
      | [] => (None, self)
      | next_song :: rest =>
          let rest' :=
            match loop_queue self, current self with
            | true, Some cur => rest ++ [cur]
            | _, _ => rest
            end in
          (Some next_song,
           {| queue := rest';
              current := Some next_song;
              loop_song := loop_song self;
              loop_queue := loop_queue self |})
      end
  end.

(** [MusicQueue.clear] *)
Definition clear (self : MusicQueue) : MusicQueue :=
  {| queue := [];
     current := None;
     loop_song := loop_song self;
     loop_queue := loop_queue self |}.

(** [MusicQueue.skip]: [return self.get_next()] *)
Definition skip (self : MusicQueue) : option YTDLSource * MusicQueue :=
  get_next self.

(** [n] successive calls of [get_next] on one queue object: the results in
    call order and the object after the last call. *)
Fixpoint get_next_n (n : nat) (self : MusicQueue)
  : list (option YTDLSource) * MusicQueue :=
  match n with
  | O => ([], self)
  | S n' =>
      let '(r, self') := get_next self in
      let '(rs, self'') := get_next_n n' self' in
      (r :: rs, self'')
  end.

(** A sequence of [add] calls, first track first. *)
Definition add_all (sources : list YTDLSource) (self : MusicQueue) : MusicQueue :=
  foldl (fun q s => add s q) self sources.

(** ** The cog

    What the cog can observe of a bound [discord.VoiceClient]: the answers of
    [is_connected()] and [is_playing()]. The class is part of discord.py, not
    of this repository; its instances are always truthy, so
    [if not voice_client] tests for [None] only. *)
Record VoiceClient : Type := MkVoiceClient {
  is_connected : bool;
  is_playing : bool
}.

(** The [after=] argument of a [voice_client.play] call. Both call sites
    (lines 196-198 and 319-321) pass the same lambda, closed over the guild
    id and nothing else:
    [lambda e: asyncio.run_coroutine_threadsafe(self.play_next(guild_id),
    self.bot.loop) if not e else logger.error(f"Player error: {e}")]. *)
Inductive After : Type :=
  | AfterPlayNext (guild_id : Z).

(** One [voice_client.play(source, after=...)] call issued by the cog: the
    guild whose voice client was called, the track handed over and the
    completion callback registered with it. *)
Record PlayCall : Type := MkPlayCall {
  call_guild : Z;
  call_source : YTDLSource;
  call_after : After
}.

#[global] Instance After_eq_dec : EqDecision After.
Proof. solve_decision. Defined.

#[global] Instance PlayCall_eq_dec : EqDecision PlayCall.
Proof. solve_decision. Defined.

(** The state of the [Music] cog. [self.queues] holds references to
    [MusicQueue] objects, so the objects live in a store [objects] keyed by
    address and [queues] maps a guild id to an address; [self.voice_clients]
    maps a guild id to its voice client. [play_calls] is the trace of
    [voice_client.play] calls, oldest first, and [log] the trace of the
    lines written through the module's [logger]. *)
Record Music : Type := MkMusic {
  objects : gmap positive MusicQueue;
  queues : gmap Z positive;
  voice_clients : gmap Z VoiceClient;
  play_calls : list PlayCall;
  log : list string
}.

(** [Music.__init__]: both dictionaries start empty. *)
Definition new_music : Music :=
  {| objects := ∅; queues := ∅; voice_clients := ∅;
     play_calls := []; log := [] |}.

(** Assignment to the object at address [r]. *)
Definition set_object (r : positive) (q : MusicQueue) (self : Music) : Music :=
  {| objects := <[r := q]> (objects self);
     queues := queues self;
     voice_clients := voice_clients self;
     play_calls := play_calls self;
     log := log self |}.

(** [voice_client.play(source, after=...)] as the cog sees it: the call is
    issued; what discord.py does with it is outside the cog. *)
Definition voice_play (guild_id : Z) (source : YTDLSource) (after : After)
    (self : Music) : Music :=
  {| objects := objects self;
     queues := queues self;
     voice_clients := voice_clients self;
     play_calls := play_calls self ++ [MkPlayCall guild_id source after];
     log := log self |}.

(** [logger.error(f"Player error: {e}")] *)
Definition logger_error (e : string) (self : Music) : Music :=
  {| objects := objects self;
     queues := queues self;
     voice_clients := voice_clients self;
     play_calls := play_calls self;
     log := log self ++ [String.append "Player error: " e] |}.

(** [Music.get_queue]: [if guild_id not in self.queues:
    self.queues[guild_id] = MusicQueue()], then [return
    self.queues[guild_id]]. [MusicQueue()] allocates a new object, at an
    address the store does not hold yet. *)
Definition get_queue (guild_id : Z) (self : Music) : positive * Music :=
  match queues self !! guild_id with
  | Some r => (r, self)
  | None =>
      let r := fresh (dom (objects self)) in
      (r, {| objects := <[r := new_queue]> (objects self);
             queues := <[guild_id := r]> (queues self);
             voice_clients := voice_clients self;
             play_calls := play_calls self;
             log := log self |})
  end.

(** [Music.play_next] (lines 184-199). *)
Definition play_next (guild_id : Z) (self : Music) : Music :=
  let '(queue_ref, self) := get_queue guild_id self in
  match voice_clients self !! guild_id with
  | None => self
  | Some voice_client =>
      if negb (is_connected voice_client) then self
      else
        let '(next_source, q') := get_next (objects self !!! queue_ref) in
        let self := set_object queue_ref q' self in
        match next_source with
        | Some source =>
            voice_play guild_id source (AfterPlayNext guild_id) self
        | None => self
        end
  end.

(** The completion callback: discord.py calls [after(e)] once the player of
    that [play] call ends, with [e] the error or [None]. An exception object
    is truthy, so [not e] holds for [None] only. The coroutine handed to
    [run_coroutine_threadsafe] is run here at the delivery of the signal. *)
Definition run_after (after : After) (e : option string) (self : Music) : Music :=
  match after with
  | AfterPlayNext guild_id =>
      match e with
      | None => play_next guild_id self
      | Some err => logger_error err self
      end
  end.

(** The embed [_play_music] ends with: "Now Playing" for a track started at
    once, or "Added to Queue" with the number printed after
    "Position in queue:". *)
Inductive Embed : Type :=
  | NowPlaying (source : YTDLSource)
  | AddedToQueue (source : YTDLSource) (position : nat).

(** Lines 324-338: the "Now Playing" embed. Its "Duration" field is added
    when [source.duration] is truthy, with [Utils.format_duration], whose
    format [:02d] raises [ValueError] on a float; the exception leaves
    [_play_music] before any embed is shown. *)
Definition now_playing (source : YTDLSource) : option Embed :=
  match duration source with
  | Some (FloatSeconds true) => None
  | _ => Some (NowPlaying source)
  end.

(** [Music._play_music] from line 311 on. Lines 258-309 unpack the context,
    check the user's voice state, join a channel and resolve the search
    string; their outcome is the three arguments: the guild of the request
    (or [None]), the value of the local [voice_client] and the resolved
    [source]. What those lines do to the cog themselves (a voice client
    stored by the join, a line logged by the resolver) is part of [play]
    below, not of this function. The first component is the embed shown at
    the end: none outside a guild, and none when building the "Now Playing"
    embed raises, which happens after the track was made [current] and
    handed to [voice_client.play]. *)
Definition _play_music (guild : option Z) (voice_client : option VoiceClient)
    (source : YTDLSource) (self : Music) : option Embed * Music :=
  match guild with
  | None => (None, self)
  | Some guild_id =>
      let '(queue_ref, self) := get_queue guild_id self in
      let q := objects self !!! queue_ref in
      match voice_client with
      | Some vc =>
          if negb (is_playing vc) then
            let q' := {| queue := queue q; current := Some source;
                         loop_song := loop_song q;
                         loop_queue := loop_queue q |} in
            let self := set_object queue_ref q' self in
            let self :=
              voice_play guild_id source (AfterPlayNext guild_id) self in
            (now_playing source, self)
          else
            let q' := add source q in
            (Some (AddedToQueue source (length (queue q'))),
             set_object queue_ref q' self)
      | None =>
          let q' := add source q in
          (Some (AddedToQueue source (length (queue q'))),
           set_object queue_ref q' self)
      end
  end.

(** The queue object a guild id is bound to, read through the registry. *)
Definition queue_of (guild_id : Z) (self : Music) : option MusicQueue :=
  r ← queues self !! guild_id; objects self !! r.

(** Every registry entry points at an object of the store. *)
Definition registry_ok (self : Music) : Prop :=
  ∀ g r, queues self !! g = Some r → is_Some (objects self !! r).

(** Every recorded [play] call carries the callback of its own guild. *)
Definition calls_ok (self : Music) : Prop :=
  Forall (λ c, call_after c = AfterPlayNext (call_guild c)) (play_calls self).

(** The tracks a queue object holds: [current], if any, then the pending
    list. *)
Definition tracks (self : MusicQueue) : list YTDLSource :=
  option_list (current self) ++ queue self.

(** Distinct guild ids are bound to distinct queue objects. *)
Definition registry_inj (self : Music) : Prop :=
  ∀ g1 g2 r, queues self !! g1 = Some r → queues self !! g2 = Some r → g1 = g2.

(** The shape of the registry in every state the cog can reach. *)
Definition music_inv (self : Music) : Prop :=
  registry_ok self ∧ registry_inj self.

(** [self'] keeps everything [self] had: no registry entry is removed or
    rebound, no queue object is dropped, the voice clients are the same, and
    the traces of [play] calls and log lines are only extended. *)
Definition extends (self self' : Music) : Prop :=
  queues self ⊆ queues self' ∧
  dom (objects self) ⊆ dom (objects self') ∧
  voice_clients self' = voice_clients self ∧
  play_calls self `prefix_of` play_calls self' ∧
  log self `prefix_of` log self'.

(** [extends] for a whole play request of guild [guild]: the voice clients
    need not be the same, since the request may join a channel, but no
    entry is removed and the entries of other guilds are as they were. *)
Definition request_extends (guild : option Z) (self self' : Music) : Prop :=
  queues self ⊆ queues self' ∧
  dom (objects self) ⊆ dom (objects self') ∧
  dom (voice_clients self) ⊆ dom (voice_clients self') ∧
  (∀ g', guild ≠ Some g' →
         voice_clients self' !! g' = voice_clients self !! g') ∧
  play_calls self `prefix_of` play_calls self' ∧
  log self `prefix_of` log self'.

(** [n] error-free completion signals of guild [guild_id] delivered one
    after the other. *)
Definition completions (n : nat) (guild_id : Z) (self : Music) : Music :=
  Nat.iter n (run_after (AfterPlayNext guild_id) None) self.

(** ** Joining a voice channel and the [play] command *)

(** [self.voice_clients[guild.id] = voice_client] *)
Definition set_voice_client (guild_id : Z) (vc : VoiceClient) (self : Music)
  : Music :=
  {| objects := objects self;
     queues := queues self;
     voice_clients := <[guild_id := vc]> (voice_clients self);
     play_calls := play_calls self;
     log := log self |}.

(** What [_join_voice] did: answered with the "Not in Voice Channel" embed,
    or awaited [voice_client.move_to(channel)] or [channel.connect()] and
    answered with the "Joined Voice Channel" embed. A channel is named by
    its [name]. *)
Inductive JoinOutcome : Type :=
  | JoinNotInVoice
  | JoinMoved (channel : string)
  | JoinConnected (channel : string).

(** [Music._join_voice] (lines 211-246). [user_voice] is the channel of
    [user.voice], or [None] when the user has no [voice] attribute or a
    falsy one; [guild] and [voice_client] are what the context or
    interaction gives; [connected] is the client [channel.connect()]
    returns. Both awaited discord.py calls are taken to return: when one
    raises, the coroutine ends there, before any assignment. *)
Definition _join_voice (user_voice : option string) (guild : option Z)
    (voice_client : option VoiceClient) (connected : VoiceClient)
    (self : Music) : JoinOutcome * Music :=
  match user_voice with
  | None => (JoinNotInVoice, self)
  | Some channel =>
      match voice_client with
      | Some _ => (JoinMoved channel, self)
      | None =>
          (JoinConnected channel,
           match guild with
           | Some guild_id => set_voice_client guild_id connected self
           | None => self
           end)
      end
  end.

(** What [YTDLSource.create_source] did for a play request: returned a
    source, on which path nothing is logged, or returned [None], having
    written at most one line through the module's [logger] on the way: the
    warning of line 84 or the error of line 100 or 128. *)
Inductive Resolution : Type :=
  | Resolved (source : YTDLSource)
  | Unresolved (logged : option string).

(** The [logger.warning(...)] or [logger.error(...)] call inside
    [create_source] that wrote [line]. *)
Definition logger_line (line : string) (self : Music) : Music :=
  {| objects := objects self;
     queues := queues self;
     voice_clients := voice_clients self;
     play_calls := play_calls self;
     log := log self ++ [line] |}.

(** How a play request ended: with the "Not in Voice Channel" embed, with
    the "Not Found" embed, or by reaching line 311 with the embed shown
    there, if any. *)
Inductive PlayOutcome : Type :=
  | PlayNotInVoice
  | PlayNotFound
  | PlayHandled (embed : option Embed).

(** The [play] command (lines 248-251), that is the whole of
    [Music._play_music] (lines 258-349) for a [commands.Context], whose
    [respond] is [Utils.safe_send] and never raises. (For an interaction,
    [respond] answers the interaction, which discord.py allows once; that
    path is not modelled.) Lines 271-283 check the user's voice state and
    join when the context has no voice client, after which the local
    [voice_client] is re-read from [self.voice_clients]; [resolution] is
    what [YTDLSource.create_source] did (lines 299-309); the rest is
    [_play_music] above. *)
Definition play (user_voice : option string) (guild : option Z)
    (voice_client : option VoiceClient) (connected : VoiceClient)
    (resolution : Resolution) (self : Music) : PlayOutcome * Music :=
  match user_voice with
  | None => (PlayNotInVoice, self)
  | Some _ =>
      let '(voice_client, self) :=
        match voice_client with
        | Some vc => (Some vc, self)
        | None =>
            let self := (_join_voice user_voice guild None connected self).2 in
            (match guild with
             | Some guild_id => voice_clients self !! guild_id
             | None => None
             end, self)
        end in
      match resolution with
      | Unresolved None => (PlayNotFound, self)
      | Unresolved (Some line) => (PlayNotFound, logger_line line self)
      | Resolved source =>
          let '(embed, self) := _play_music guild voice_client source self in
          (PlayHandled embed, self)
      end
  end.

(** ** Helpers of [src/bot/utils.py] and [src/bot/config.py] used by the cog *)

(** The embed colours of [Config] (lines 37-41 of config.py). *)
Definition COLOR_SUCCESS : Z := 0x00ff00.
Definition COLOR_ERROR : Z := 0xff0000.
Definition COLOR_WARNING : Z := 0xffaa00.
Definition COLOR_INFO : Z := 0x0099ff.
Definition COLOR_MUSIC : Z := 0x9932cc.

(** The dictionary [colors] built in [Config.get_embed_color]. *)
Definition colors : gmap string Z :=
  list_to_map
    [("success"%string, COLOR_SUCCESS); ("error"%string, COLOR_ERROR);
     ("warning"%string, COLOR_WARNING); ("info"%string, COLOR_INFO);
     ("music"%string, COLOR_MUSIC)].

(** [Config.get_embed_color]: [colors.get(type, cls.COLOR_INFO)] *)
Definition get_embed_color (type : string) : Z :=
  default COLOR_INFO (colors !! type).

(** A [discord.Embed] as [Utils.create_embed] builds it. *)
Record DiscordEmbed : Type := MkEmbed {
  embed_title : string;
  embed_description : option string;
  embed_color : Z
}.

(** [Utils.create_embed]; the defaults of the signature are
    [description=None] and [color_type="info"]. *)
Definition create_embed (title : string) (description : option string)
    (color_type : string) : DiscordEmbed :=
  {| embed_title := title;
     embed_description := description;
     embed_color := get_embed_color color_type |}.

(** The format [{n:02d}] of an [int]: the decimal digits, with a minus sign
    for a negative number, zero-filled on the left to two characters. A
    negative number already has two characters. *)
Definition format_02d (n : Z) : string :=
  let s := pretty n in
  if (String.length s <? 2)%nat then "0" +:+ s else s.

(** [Utils.format_duration]: [//] and [%] are floor division and its
    remainder, as [Z.div] and [Z.modulo] are for the divisor 60. *)
Definition format_duration (seconds : Z) : string :=
  let minutes := seconds `div` 60 in
  let seconds := seconds `mod` 60 in
  format_02d minutes +:+ ":" +:+ format_02d seconds.

(** The character of a decimal digit [0 <= d <= 9]. *)
Definition digit_char (d : Z) : Ascii.ascii :=
  Ascii.ascii_of_nat (48 + Z.to_nat d).

(** ** Resolving a search: [YTDLSource.create_source]

    Python's [sub in s] on strings. *)
Fixpoint contains (sub s : string) : bool :=
  String.prefix sub s ||
  match s with
  | EmptyString => false
  | String _ s' => contains sub s'
  end.

(** Python's [s.split(sep)] for a non-empty [sep]: the text is scanned from
    the left, every occurrence of [sep] found ends the part collected so far
    and is skipped whole, so occurrences do not overlap. [skip] counts the
    characters of the occurrence still to be skipped and [part] is the part
    being collected. *)
Fixpoint split_go (sep : string) (skip : nat) (part s : string) : list string :=
  match s with
  | EmptyString => [part]
  | String c s' =>
      match skip with
      | S k => split_go sep k part s'
      | O =>
          if String.prefix sep s
          then part :: split_go sep (String.length sep - 1) "" s'
          else split_go sep 0 (part +:+ String c "") s'
      end
  end.

Definition split (sep s : string) : list string := split_go sep 0 "" s.

(** The track id read off a Spotify link (lines 108-113 of
    [_get_spotify_track_info]): [split('track/')[-1].split('?')[0]] when
    the link contains "track/", [split('spotify:track:')[-1]] when it
    contains "spotify:track:", otherwise the function returns [None]. A
    split is never empty, so [[-1]] and [[0]] always exist. *)
Definition spotify_track_id (spotify_url : string) : option string :=
  if contains "track/" spotify_url then
    Some (default ""%string
            (head (split "?" (default ""%string
                                (last (split "track/" spotify_url))))))
  else if contains "spotify:track:" spotify_url then
    Some (default ""%string (last (split "spotify:track:" spotify_url)))
  else None.

(** What [spotify_client.track(track_id)] answers, as far as
    [_get_spotify_track_info] reads it: [name], the [name] of each entry of
    [artists], the [name] of [album], [duration_ms] and
    [external_urls['spotify']]. *)
Record SpotifyTrack : Type := MkSpotifyTrack {
  sp_name : string;
  sp_artists : list string;
  sp_album : string;
  sp_duration_ms : Z;
  sp_external_url : string
}.

(** The dictionary [_get_spotify_track_info] returns. *)
Record TrackInfo : Type := MkTrackInfo {
  ti_name : string;
  ti_artist : string;
  ti_album : string;
  ti_duration : Z;
  ti_external_url : string
}.

(** [YTDLSource._get_spotify_track_info] (lines 103-129). The module-level
    [spotify_client] is [None] when its construction failed (lines 43-52);
    otherwise it is given by its [track] method, whose answer is [None] when
    the call raises or the answer lacks a key the function reads. Every
    exception, also the [IndexError] of [artists[0]] on an empty list, ends
    in the [except] clause, which returns [None]. *)
Definition _get_spotify_track_info
    (spotify_client : option (string → option SpotifyTrack))
    (spotify_url : string) : option TrackInfo :=
  match spotify_track_id spotify_url with
  | None => None
  | Some track_id =>
      match spotify_client with
      | None => None
      | Some track =>
          match track track_id with
          | None => None
          | Some track_info =>
              match sp_artists track_info with
              | [] => None
              | artist :: _ =>
                  Some {| ti_name := sp_name track_info;
                          ti_artist := artist;
                          ti_album := sp_album track_info;
                          ti_duration := sp_duration_ms track_info `div` 1000;
                          ti_external_url := sp_external_url track_info |}
              end
          end
      end
  end.

(** An info dictionary of youtube-dl, as far as [create_source] and
    [YTDLSource.__init__] read it: [info_url] is [None] when the key ['url']
    is missing, the other fields are what [data.get] gives. *)
Record InfoDict : Type := MkInfo {
  info_url : option string;
  info_title : option string;
  info_duration : option Seconds;
  info_thumbnail : option string;
  info_uploader : option string
}.

(** What [ytdl.extract_info] did: raised, returned a falsy value ([None] or
    an empty dictionary), or returned a dictionary, with the value of its
    ['entries'] key when it has one. An entry is [None] when it is [None] or
    an empty dictionary. *)
Inductive ExtractResult : Type :=
  | ExtractRaised
  | ExtractNothing
  | ExtractInfo (entries : option (list (option InfoDict))) (info : InfoDict).

(** [YTDLSource.__init__] *)
Definition source_of_info (data : InfoDict) : YTDLSource :=
  {| title := info_title data;
     url := info_url data;
     duration := info_duration data;
     thumbnail := info_thumbnail data;
     uploader := info_uploader data |}.

(** Lines 90-98 of [create_source]: the first entry replaces [data] when
    ['entries'] is there and not empty; a source is built when [data] is
    truthy and has a ['url']. [ffmpeg filename] tells whether
    [discord.FFmpegPCMAudio(filename, ...)] returns; when it raises, the
    [except] clause returns [None]. *)
Definition source_of_result (ffmpeg : string → bool) (result : ExtractResult)
  : option YTDLSource :=
  match result with
  | ExtractRaised => None
  | ExtractNothing => None
  | ExtractInfo entries info =>
      let data :=
        match entries with
        | Some (first :: _) => first
        | _ => Some info
        end in
      match data with
      | Some data =>
          match info_url data with
          | Some filename =>
              if ffmpeg filename then Some (source_of_info data) else None
          | None => None
          end
      | None => None
      end
  end.

(** Lines 72-88 of [create_source]: the text handed to [ytdl.extract_info],
    or [None] when the function returns [None] before any lookup. A search
    that contains "spotify.com" or "spotify:" is looked up on Spotify and
    then searched on YouTube as "ytsearch:<artist> <name>"; any other search
    is handed over as it is. *)
Definition lookup_text (spotify_client : option (string → option SpotifyTrack))
    (search : string) : option string :=
  if contains "spotify.com" search || contains "spotify:" search then
    match spotify_client with
    | Some _ =>
        match _get_spotify_track_info spotify_client search with
        | Some track_info =>
            Some ("ytsearch:" +:+ ti_artist track_info +:+ " "
                  +:+ ti_name track_info)
        | None => None
        end
    | None => None
    end
  else Some search.

(** [YTDLSource.create_source] (lines 66-101). *)
Definition create_source (spotify_client : option (string → option SpotifyTrack))
    (extract_info : string → ExtractResult) (ffmpeg : string → bool)
    (search : string) : option YTDLSource :=
  match lookup_text spotify_client search with
  | Some text => source_of_result ffmpeg (extract_info text)
  | None => None
  end.

(** The text of [s] from index [n] on: [s[n:]]. *)
Fixpoint string_drop (n : nat) (s : string) : string :=
  match n, s with
  | O, _ => s
  | S n', String _ s' => string_drop n' s'
  | S _, EmptyString => EmptyString
  end.

(** The shifts [0 < j < len(sep)] at which [sep] overlaps itself, that is
    at which [sep[j:]] is a prefix of [sep]. *)
Definition borders (sep : string) : list nat :=
  filter (λ j, String.prefix (string_drop j sep) sep = true)
         (seq 1 (String.length sep - 1)).

(** ** Sample data used by the closed lemmas *)

Definition track_A : YTDLSource :=
  MkSource (Some "A"%string) (Some "https://example.org/a"%string)
    (Some (IntSeconds 180)) None None.

Definition track_B : YTDLSource :=
  MkSource (Some "B"%string) (Some "https://example.org/b"%string)
    (Some (IntSeconds 200)) None None.

Definition track_C : YTDLSource :=
  MkSource (Some "C"%string) (Some "https://example.org/c"%string) None None None.

Definition sample_guild : Z := 42.

Definition vc_idle : VoiceClient := MkVoiceClient true false.
Definition vc_playing : VoiceClient := MkVoiceClient true true.
Definition vc_offline : VoiceClient := MkVoiceClient false false.

(** A cog that has joined a voice channel of [sample_guild] and nothing
    else: [_join_voice] stored the voice client (line 239). *)
Definition joined_music (vc : VoiceClient) : Music :=
  {| objects := ∅; queues := ∅;
     voice_clients := {[ sample_guild := vc ]};
     play_calls := []; log := [] |}.

(** A play request for [track_A] with nothing playing, then one for
    [track_C] while [track_A] plays. *)
Definition after_two_requests : Music :=
  let s1 := (_play_music (Some sample_guild) (Some vc_idle) track_A
               (joined_music vc_idle)).2 in
  (_play_music (Some sample_guild) (Some vc_playing) track_C s1).2.

(** [track_A] has ended, so [is_playing()] is false again, and a play
    request for [track_B] is handled before the completion callback of
    [track_A] has run: [track_B] is started by a second [play] call. *)
Definition superseded_start : Music :=
  (_play_music (Some sample_guild) (Some vc_idle) track_B after_two_requests).2.

(** ** Facts about the queue shared by the theorems below *)

Lemma get_next_n_app (n m : nat) (q : MusicQueue) :
  get_next_n (n + m) q =
  ((get_next_n n q).1 ++ (get_next_n m (get_next_n n q).2).1,
   (get_next_n m (get_next_n n q).2).2).
Proof.
  revert q. induction n as [|n IH]; intros q; simpl.
  - by destruct (get_next_n m q).
  - destruct (get_next q) as [r q1]. rewrite IH.
    destruct (get_next_n n q1) as [rs q2]. simpl.
    by destruct (get_next_n m q2).
Qed.

Lemma add_all_queue (l : list YTDLSource) (q : MusicQueue) :
  add_all l q =
  {| queue := queue q ++ l; current := current q;
     loop_song := loop_song q; loop_queue := loop_queue q |}.
Proof.
  revert q. induction l as [|x l IH]; intros q; simpl.
  - rewrite app_nil_r. by destruct q.
  - rewrite IH. simpl. by rewrite <- app_assoc.
Qed.

(** With both loop flags off the pending tracks come out head first and the
    last of them is left in [current]. *)
Lemma get_next_n_drain (l : list YTDLSource) (cur : option YTDLSource) :
  get_next_n (length l) (MkMusicQueue l cur false false) =
  (Some <$> l, MkMusicQueue [] (from_option Some cur (last l)) false false).
Proof.
  revert cur. induction l as [|x l IH]; intros cur; simpl.
  - done.
  - unfold get_next; simpl. rewrite (IH (Some x)). simpl.
    f_equal. f_equal. destruct l as [|y l]; [done|].
    change (last (x :: y :: l)) with (last (y :: l)).
    destruct (last (y :: l)) eqn:E; [reflexivity|].
    by apply last_None in E.
Qed.

(** Once the pending list is empty and [loop_song] is off, every further
    call returns [None] and changes nothing. *)
Lemma get_next_n_exhausted (k : nat) (cur : option YTDLSource) (lq : bool) :
  get_next_n k (MkMusicQueue [] cur false lq) =
  (replicate k None, MkMusicQueue [] cur false lq).
Proof.
  induction k as [|k IH]; simpl; [done|].
  unfold get_next; simpl. by rewrite IH.
Qed.

(** ** The queue: [get_next], [add] and [skip] *)

(** C1, as stated, fails: with an empty pending list, [loop_song] off and a
    track in [current], [get_next] returns [None] but [current] still holds
    that track afterwards. *)
Lemma get_next_exhausted_current_cex :
  let q := MkMusicQueue [] (Some track_A) false false in
  queue q = [] ∧ loop_song q = false ∧
  (get_next q).1 = None ∧
  current (get_next q).2 = Some track_A ∧
  current (get_next q).2 ≠ None.
Proof. by repeat split. Qed.

(** C2: tracks added to a queue with both loop flags off come back from
    successive [get_next] calls in the order they were added, after which
    every call returns [None]; when the tracks are distinct, no track is
    returned by two different calls. *)
Theorem get_next_fifo (l : list YTDLSource) (cur : option YTDLSource) (k : nat) :
  NoDup l →
  let results :=
    (get_next_n (length l + k) (add_all l (MkMusicQueue [] cur false false))).1 in
  results = (Some <$> l) ++ replicate k None ∧
  ∀ i j x, results !! i = Some (Some x) → results !! j = Some (Some x) → i = j.
Proof.
  intros Hnd results.
  assert (results = (Some <$> l) ++ replicate k None) as Hres.
  { unfold results. rewrite add_all_queue, get_next_n_app. simpl.
    rewrite get_next_n_drain. simpl. by rewrite get_next_n_exhausted. }
  split; [done|]. rewrite Hres. clear results Hres.
  assert (∀ i x, ((Some <$> l) ++ replicate k None) !! i = Some (Some x) →
                 l !! i = Some x) as Hin.
  { intros i x Hi. apply lookup_app_Some in Hi as [Hi | [_ Hi]].
    - rewrite list_lookup_fmap in Hi.
      destruct (l !! i); simpl in Hi; congruence.
    - apply lookup_replicate in Hi as [? _]. done. }
  intros i j x Hi Hj.
  eapply NoDup_lookup; [exact Hnd | by apply Hin | by apply Hin].
Qed.

(** [get_next_fifo] on three distinct tracks and two further calls. *)
Lemma get_next_fifo_witness :
  let results :=
    (get_next_n (length [track_A; track_B; track_C] + 2)
       (add_all [track_A; track_B; track_C] (MkMusicQueue [] None false false))).1 in
  results = (Some <$> [track_A; track_B; track_C]) ++ replicate 2 None ∧
  ∀ i j x, results !! i = Some (Some x) → results !! j = Some (Some x) → i = j.
Proof.
  apply (get_next_fifo [track_A; track_B; track_C] None 2).
  compute_done.
Defined.

(** C3: with [loop_queue] on and [loop_song] off, a call on a non-empty
    pending list pops its head, appends the previous [current] (when there
    is one) to the tail and makes the popped track [current]; and on the
    queue holding [A; B] with no [current], the [n]-th call (counted from 0)
    returns [A] for even [n] and [B] for odd [n], for every [n]. *)
Theorem get_next_loop_queue_rotation (A B : YTDLSource) :
  (∀ h t cur,
     get_next (MkMusicQueue (h :: t) cur false true) =
     (Some h, MkMusicQueue (t ++ option_list cur) (Some h) false true)) ∧
  (∀ n,
     let q0 := add B (add A (MkMusicQueue [] None false true)) in
     (get_next (get_next_n n q0).2).1 = Some (if Nat.even n then A else B)).
Proof.
  split.
  - intros h t [c|]; unfold get_next; simpl; [done|]. by rewrite app_nil_r.
  - intros n q0.
    assert (∀ m, (get_next_n (S m) q0).2 =
                 if Nat.even m then MkMusicQueue [B] (Some A) false true
                 else MkMusicQueue [A] (Some B) false true) as Hstate.
    { induction m as [|m IH]; [done|].
      replace (S (S m)) with (S m + 1)%nat by lia.
      rewrite get_next_n_app. cbn [snd]. rewrite IH.
      rewrite Nat.even_succ, <- Nat.negb_even.
      by destruct (Nat.even m). }
    destruct n as [|m]; [done|].
    rewrite Hstate, Nat.even_succ, <- Nat.negb_even.
    by destruct (Nat.even m).
Qed.

(** C4: with [loop_song] on and a track in [current], any number of
    [get_next] calls all return that track and leave the pending list,
    [current] and both flags as they were, whatever [loop_queue] is. *)
Theorem get_next_loop_song_idempotent
    (pending : list YTDLSource) (cur : YTDLSource) (lq : bool) (n : nat) :
  get_next (MkMusicQueue pending (Some cur) true lq) =
    (Some cur, MkMusicQueue pending (Some cur) true lq) ∧
  get_next_n n (MkMusicQueue pending (Some cur) true lq) =
    (replicate n (Some cur), MkMusicQueue pending (Some cur) true lq).
Proof.
  split; [done|].
  induction n as [|n IH]; [done|].
  cbn [get_next_n]. unfold get_next at 1. cbn. by rewrite IH.
Qed.

(** C7: [skip] returns what [get_next] returns and leaves the queue object
    in the same state, field by field. *)
Theorem skip_is_get_next (q : MusicQueue) :
  (skip q).1 = (get_next q).1 ∧
  queue (skip q).2 = queue (get_next q).2 ∧
  current (skip q).2 = current (get_next q).2 ∧
  loop_song (skip q).2 = loop_song (get_next q).2 ∧
  loop_queue (skip q).2 = loop_queue (get_next q).2.
Proof. unfold skip. by repeat split. Qed.

(** ** The registry: [get_queue] *)

Lemma get_queue_existing (g : Z) (st : Music) (r : positive) :
  queues st !! g = Some r → get_queue g st = (r, st).
Proof. intros H. unfold get_queue. by rewrite H. Qed.

Lemma get_queue_registered (g : Z) (st : Music) :
  queues (get_queue g st).2 !! g = Some (get_queue g st).1.
Proof.
  unfold get_queue. destruct (queues st !! g) eqn:E; simpl; [done|].
  by rewrite lookup_insert_eq.
Qed.

Lemma get_queue_fresh (g : Z) (st : Music) :
  queues st !! g = None → objects st !! (get_queue g st).1 = None.
Proof.
  intros H. unfold get_queue. rewrite H. simpl.
  apply not_elem_of_dom, is_fresh.
Qed.

Lemma get_queue_objects (g : Z) (st : Music) (r : positive) (q : MusicQueue) :
  objects st !! r = Some q → objects (get_queue g st).2 !! r = Some q.
Proof.
  intros H. unfold get_queue. destruct (queues st !! g) eqn:E; simpl; [done|].
  rewrite lookup_insert_ne; [done|].
  intros <-. pose proof (is_fresh (dom (objects st))) as Hf.
  apply Hf, elem_of_dom. by eexists.
Qed.

Lemma get_queue_frame (g : Z) (st : Music) :
  voice_clients (get_queue g st).2 = voice_clients st ∧
  play_calls (get_queue g st).2 = play_calls st ∧
  log (get_queue g st).2 = log st.
Proof. unfold get_queue. by destruct (queues st !! g). Qed.

Lemma get_queue_total (g : Z) (st : Music) :
  queues st !! g = None →
  objects (get_queue g st).2 !! (get_queue g st).1 = Some new_queue.
Proof.
  intros H. unfold get_queue. rewrite H. simpl. by rewrite lookup_insert_eq.
Qed.

Lemma get_queue_registry_ok (g : Z) (st : Music) :
  registry_ok st → registry_ok (get_queue g st).2.
Proof.
  intros Hok g' r' Hg'. unfold get_queue in *.
  destruct (queues st !! g) eqn:E; simpl in *; [by eapply Hok|].
  destruct (decide (g = g')) as [<-|Hne].
  - rewrite lookup_insert_eq in Hg'. injection Hg' as <-.
    rewrite lookup_insert_eq. by eexists.
  - rewrite lookup_insert_ne in Hg' by done.
    destruct (Hok _ _ Hg') as [q Hq].
    exists q. rewrite lookup_insert_ne; [done|].
    intros <-. pose proof (is_fresh (dom (objects st))) as Hf.
    apply Hf, elem_of_dom. by eexists.
Qed.

Lemma new_music_registry_ok : registry_ok new_music.
Proof. intros g r H. simpl in H. by rewrite lookup_empty in H. Qed.

Lemma set_object_registry_ok (r : positive) (q : MusicQueue) (st : Music) :
  registry_ok st → registry_ok (set_object r q st).
Proof.
  intros Hok g r' Hg. simpl in *.
  destruct (decide (r = r')) as [<-|Hne].
  - rewrite lookup_insert_eq. by eexists.
  - rewrite lookup_insert_ne by done. by eapply Hok.
Qed.

(** C8: [get_queue] returns the queue object already stored for the guild
    and changes nothing when there is one; otherwise it allocates a new
    object with an empty pending list, no [current] and both flags off,
    stores it under the guild id and returns it. A second call with the same
    guild id returns the same object and changes nothing. Entries of other
    guild ids and all objects that existed before are left as they were. *)
Theorem get_queue_get_or_create (g : Z) (st : Music) :
  let r := (get_queue g st).1 in
  let st' := (get_queue g st).2 in
  (∀ r0, queues st !! g = Some r0 → r = r0 ∧ st' = st) ∧
  (queues st !! g = None →
     objects st !! r = None ∧
     objects st' !! r = Some (MkMusicQueue [] None false false)) ∧
  queues st' !! g = Some r ∧
  get_queue g st' = (r, st') ∧
  (∀ g', g' ≠ g → queues st' !! g' = queues st !! g') ∧
  (∀ r' q, objects st !! r' = Some q → objects st' !! r' = Some q) ∧
  (∀ g' q, g' ≠ g → queue_of g' st = Some q → queue_of g' st' = Some q) ∧
  voice_clients st' = voice_clients st ∧
  play_calls st' = play_calls st ∧
  log st' = log st.
Proof.
  intros r st'.
  assert (∀ g', g' ≠ g → queues st' !! g' = queues st !! g') as Hother.
  { intros g' Hne. unfold st', get_queue.
    destruct (queues st !! g); simpl; [done|]. by rewrite lookup_insert_ne. }
  assert (∀ r' q, objects st !! r' = Some q → objects st' !! r' = Some q)
    as Hobj by (intros; by apply get_queue_objects).
  split_and!; try done; try apply get_queue_frame.
  - intros r0 H. unfold r, st'. by rewrite (get_queue_existing _ _ _ H).
  - intros H. split; [by apply get_queue_fresh | by apply get_queue_total].
  - apply get_queue_registered.
  - apply get_queue_existing, get_queue_registered.
  - intros g' q Hne. unfold queue_of. rewrite (Hother _ Hne).
    destruct (queues st !! g') as [r'|]; simpl; [apply Hobj | done].
Qed.

(** ** [play_next] and the completion callback *)

Lemma queue_of_get_queue (g : Z) (st : Music) (q : MusicQueue) :
  queue_of g st = Some q → get_queue g st = ((get_queue g st).1, st) ∧
  objects st !! (get_queue g st).1 = Some q.
Proof.
  unfold queue_of. destruct (queues st !! g) as [r|] eqn:E; simpl; [|done].
  intros H. by rewrite (get_queue_existing _ _ _ E).
Qed.

Lemma play_next_connected (g : Z) (st : Music) (r : positive)
    (q : MusicQueue) (vc : VoiceClient) :
  queues st !! g = Some r →
  objects st !! r = Some q →
  voice_clients st !! g = Some vc →
  is_connected vc = true →
  play_next g st =
  match (get_next q).1 with
  | Some source =>
      voice_play g source (AfterPlayNext g) (set_object r (get_next q).2 st)
  | None => set_object r (get_next q).2 st
  end.
Proof.
  intros Hq Ho Hv Hc. unfold play_next.
  rewrite (get_queue_existing _ _ _ Hq), Hv, Hc. simpl.
  rewrite (lookup_total_correct _ _ _ Ho).
  by destruct (get_next q) as [[src|] q'].
Qed.

(** C1, amended: when the pending list is empty and [loop_song] is off (or
    [current] is absent), [get_next] returns [None] and leaves the whole
    queue object as it was; so [current] is absent afterwards exactly when
    it was absent before. In particular an error-free completion signal for
    a guild whose queue is in such a state changes nothing: [current] is
    afterwards what it was before the signal. *)
Theorem get_next_exhausted (q : MusicQueue) :
  queue q = [] →
  loop_song q = false ∨ current q = None →
  get_next q = (None, q) ∧
  (current (get_next q).2 = None ↔ current q = None) ∧
  (∀ g st, queue_of g st = Some q →
     run_after (AfterPlayNext g) None st = st ∧
     queue_of g (run_after (AfterPlayNext g) None st) = Some q).
Proof.
  intros Hq Hl.
  assert (get_next q = (None, q)) as Hget.
  { destruct q as [p c ls lq]; simpl in *; subst p.
    unfold get_next; simpl.
    destruct Hl as [-> | ->]; [done|]. by destruct ls. }
  rewrite Hget. split_and!; [done | done |].
  intros g st Hg.
  assert (run_after (AfterPlayNext g) None st = st) as ->; [|done].
  unfold queue_of in Hg.
  destruct (queues st !! g) as [r|] eqn:Hr; simpl in Hg; [|done].
  cbn [run_after]. unfold play_next.
  rewrite (get_queue_existing _ _ _ Hr).
  destruct (voice_clients st !! g) as [vc|]; [|done].
  destruct (negb (is_connected vc)); [done|].
  rewrite (lookup_total_correct _ _ _ Hg), Hget.
  unfold set_object. rewrite (insert_id _ _ _ Hg). by destruct st.
Qed.

(** [get_next_exhausted] on an exhausted queue that still has a [current]. *)
Lemma get_next_exhausted_witness :
  let q := MkMusicQueue [] (Some track_A) false true in
  get_next q = (None, q) ∧
  (current (get_next q).2 = None ↔ current q = None) ∧
  (∀ g st, queue_of g st = Some q →
     run_after (AfterPlayNext g) None st = st ∧
     queue_of g (run_after (AfterPlayNext g) None st) = Some q).
Proof.
  apply (get_next_exhausted (MkMusicQueue [] (Some track_A) false true)).
  - reflexivity.
  - left. reflexivity.
Defined.

Lemma play_next_calls_ok (g : Z) (st : Music) :
  calls_ok st → calls_ok (play_next g st).
Proof.
  unfold calls_ok, play_next. intros H.
  destruct (get_queue g st) as [r st1] eqn:E.
  pose proof (get_queue_frame g st) as (_ & Hp & _). rewrite E in Hp. simpl in Hp.
  destruct (voice_clients st1 !! g) as [vc|]; [|by rewrite Hp].
  destruct (negb (is_connected vc)); [by rewrite Hp|].
  destruct (get_next (objects st1 !!! r)) as [[src|] q']; simpl; rewrite Hp; [|done].
  apply Forall_app. split; [done|]. by constructor.
Qed.

Lemma _play_music_calls_ok (guild : option Z) (voice_client : option VoiceClient)
    (source : YTDLSource) (st : Music) :
  calls_ok st → calls_ok (_play_music guild voice_client source st).2.
Proof.
  unfold calls_ok, _play_music. intros H.
  destruct guild as [g|]; [|done].
  destruct (get_queue g st) as [r st1] eqn:E.
  pose proof (get_queue_frame g st) as (_ & Hp & _). rewrite E in Hp. simpl in Hp.
  destruct voice_client as [vc|]; [|by simpl; rewrite Hp].
  destruct (negb (is_playing vc)); simpl; rewrite Hp; [|done].
  apply Forall_app. split; [done|]. by constructor.
Qed.

(** The registry never holds a dangling reference: the invariant holds in
    [new_music] and every operation of the cog keeps it, so the total lookup
    [!!!] in [play_next] and [_play_music] always reads a stored object. *)
Lemma play_next_registry_ok (g : Z) (st : Music) :
  registry_ok st → registry_ok (play_next g st).
Proof.
  intros Hok. apply (get_queue_registry_ok g) in Hok.
  unfold play_next. destruct (get_queue g st) as [r st1]. simpl in Hok.
  destruct (voice_clients st1 !! g) as [vc|]; [|done].
  destruct (negb (is_connected vc)); [done|].
  destruct (get_next (objects st1 !!! r)) as [[src|] q'];
    by apply set_object_registry_ok.
Qed.

Lemma _play_music_registry_ok (guild : option Z)
    (voice_client : option VoiceClient) (source : YTDLSource) (st : Music) :
  registry_ok st → registry_ok (_play_music guild voice_client source st).2.
Proof.
  intros Hok. unfold _play_music. destruct guild as [g|]; [|done].
  apply (get_queue_registry_ok g) in Hok.
  destruct (get_queue g st) as [r st1]. simpl in Hok.
  destruct voice_client as [vc|]; [destruct (negb (is_playing vc))|];
    by apply set_object_registry_ok.
Qed.

Lemma run_after_registry_ok (cb : After) (e : option string) (st : Music) :
  registry_ok st → registry_ok (run_after cb e st).
Proof.
  destruct cb as [g], e as [err|]; simpl; [done|]. apply play_next_registry_ok.
Qed.

(** C10: when no voice client is stored for the guild, or the stored one is
    not connected, [play_next] does nothing beyond its [get_queue] call: no
    [play] call is issued, nothing is logged, a queue the guild already had
    keeps its pending list, [current] and flags (the whole cog state is
    unchanged then), and a guild without a queue gets a new empty one. *)
Theorem play_next_without_voice (g : Z) (st : Music) :
  (voice_clients st !! g = None ∨
   ∃ vc, voice_clients st !! g = Some vc ∧ is_connected vc = false) →
  play_next g st = (get_queue g st).2 ∧
  play_calls (play_next g st) = play_calls st ∧
  log (play_next g st) = log st ∧
  voice_clients (play_next g st) = voice_clients st ∧
  (∀ q, queue_of g st = Some q →
        play_next g st = st ∧ queue_of g (play_next g st) = Some q) ∧
  (queues st !! g = None →
        queue_of g (play_next g st) = Some (MkMusicQueue [] None false false)).
Proof.
  intros Hv.
  assert (play_next g st = (get_queue g st).2) as Heq.
  { unfold play_next. destruct (get_queue g st) as [r st1] eqn:E.
    pose proof (get_queue_frame g st) as (Hvc & _). rewrite E in Hvc.
    simpl in *. rewrite Hvc.
    destruct Hv as [-> | (vc & -> & Hc)]; [done|]. by rewrite Hc. }
  rewrite Heq. pose proof (get_queue_frame g st) as (? & ? & ?).
  split_and!; try done.
  - intros q Hq. destruct (queue_of_get_queue _ _ _ Hq) as [-> _]. done.
  - intros Hn. unfold queue_of. rewrite get_queue_registered. simpl.
    by apply get_queue_total.
Qed.

(** [play_next_without_voice] on a guild whose voice client is stored but not
    connected and whose queue holds one pending track. *)
Lemma play_next_without_voice_witness :
  let st := (_play_music (Some sample_guild) (Some vc_playing) track_A
               (joined_music vc_offline)).2 in
  play_next sample_guild st = (get_queue sample_guild st).2 ∧
  play_calls (play_next sample_guild st) = play_calls st ∧
  log (play_next sample_guild st) = log st ∧
  voice_clients (play_next sample_guild st) = voice_clients st ∧
  (∀ q, queue_of sample_guild st = Some q →
        play_next sample_guild st = st ∧
        queue_of sample_guild (play_next sample_guild st) = Some q) ∧
  (queues st !! sample_guild = None →
        queue_of sample_guild (play_next sample_guild st) =
        Some (MkMusicQueue [] None false false)).
Proof.
  apply (play_next_without_voice sample_guild
           (_play_music (Some sample_guild) (Some vc_playing) track_A
              (joined_music vc_offline)).2).
  right. exists vc_offline. split; reflexivity.
Defined.

(** C5: a completion signal that carries an error only logs it. Whatever
    [play] call the callback belongs to, [play_next] is not run: the store
    of queue objects and the registry are the same afterwards (so the
    guild's pending list and [current] are unchanged), no [play] call is
    issued, and the log gains the one line "Player error: ...". *)
Theorem after_error_only_logs (cb : After) (err : string) (st : Music) :
  let st' := run_after cb (Some err) st in
  st' = logger_error err st ∧
  objects st' = objects st ∧
  queues st' = queues st ∧
  (∀ g, queue_of g st' = queue_of g st) ∧
  voice_clients st' = voice_clients st ∧
  play_calls st' = play_calls st ∧
  log st' = log st ++ [String.append "Player error: " err].
Proof. destruct cb as [g]. by repeat split. Qed.

(** ** Play requests: [_play_music] *)

(** C9: a play request handled while the voice client reports
    [is_playing()] adds the track to the tail of the guild's pending list,
    leaves [current] and the flags alone and issues no [play] call; the
    position it reports is the length of the pending list after the append,
    and the track sits at that 1-based position. In the scenario of a
    request for [track_A] on an idle cog followed by one for [track_B] while
    [track_A] plays, the reported position of [track_B] is 1. *)
Theorem play_music_while_playing (g : Z) (vc : VoiceClient)
    (source : YTDLSource) (st : Music) :
  is_playing vc = true →
  let q := objects (get_queue g st).2 !!! (get_queue g st).1 in
  let reply := (_play_music (Some g) (Some vc) source st).1 in
  let st' := (_play_music (Some g) (Some vc) source st).2 in
  (∀ q0, queue_of g st = Some q0 → q = q0) ∧
  (queues st !! g = None → q = new_queue) ∧
  queue_of g st' =
    Some (MkMusicQueue (queue q ++ [source]) (current q)
            (loop_song q) (loop_queue q)) ∧
  play_calls st' = play_calls st ∧
  reply = Some (AddedToQueue source (length (queue q ++ [source]))) ∧
  (queue q ++ [source]) !! (length (queue q ++ [source]) - 1)%nat = Some source ∧
  (let s1 := (_play_music (Some sample_guild) (Some vc_idle) track_A
                (joined_music vc_idle)).2 in
   queue_of sample_guild s1 = Some (MkMusicQueue [] (Some track_A) false false) ∧
   play_calls s1 =
     [MkPlayCall sample_guild track_A (AfterPlayNext sample_guild)] ∧
   let s2 := _play_music (Some sample_guild) (Some vc_playing) track_B s1 in
   s2.1 = Some (AddedToQueue track_B 1) ∧
   queue_of sample_guild s2.2 =
     Some (MkMusicQueue [track_B] (Some track_A) false false) ∧
   play_calls s2.2 = play_calls s1).
Proof.
  intros Hp q reply st'.
  assert (∀ q0, queue_of g st = Some q0 → q = q0) as Hq0.
  { intros q0 H. destruct (queue_of_get_queue _ _ _ H) as [_ Ho].
    unfold q. apply lookup_total_correct. by apply get_queue_objects. }
  assert (queues st !! g = None → q = new_queue) as Hnew.
  { intros H. unfold q.
    by rewrite (lookup_total_correct _ _ _ (get_queue_total _ _ H)). }
  assert (_play_music (Some g) (Some vc) source st =
          (Some (AddedToQueue source (length (queue q ++ [source]))),
           set_object (get_queue g st).1 (add source q) (get_queue g st).2))
    as Heq.
  { unfold _play_music, q. destruct (get_queue g st) as [r st1].
    simpl. by rewrite Hp. }
  unfold reply, st'. rewrite Heq. simpl.
  split_and!; try done.
  - unfold queue_of. simpl. rewrite get_queue_registered. simpl.
    by rewrite lookup_insert_eq.
  - apply get_queue_frame.
  - rewrite length_app. simpl. apply list_lookup_middle. lia.
Qed.

(** [play_music_while_playing] on a queue that already holds one pending
    track: the second position is reported. *)
Lemma play_music_while_playing_witness :
  let g := sample_guild in
  let st := after_two_requests in
  let q := objects (get_queue g st).2 !!! (get_queue g st).1 in
  let reply := (_play_music (Some g) (Some vc_playing) track_B st).1 in
  let st' := (_play_music (Some g) (Some vc_playing) track_B st).2 in
  queue_of g st' =
    Some (MkMusicQueue (queue q ++ [track_B]) (current q)
            (loop_song q) (loop_queue q)) ∧
  play_calls st' = play_calls st ∧
  reply = Some (AddedToQueue track_B (length (queue q ++ [track_B]))) ∧
  reply = Some (AddedToQueue track_B 2).
Proof.
  pose proof (play_music_while_playing sample_guild vc_playing track_B
                after_two_requests eq_refl) as H.
  cbv zeta in *. destruct H as (_ & _ & H1 & H2 & H3 & _).
  split_and!; [exact H1 | exact H2 | exact H3 | reflexivity].
Defined.

(** ** Completion signals of superseded starts *)

(** C6, as stated, fails: a [play] call carries no generation id, only the
    callback closed over the guild id, and the completion of a start that a
    later start has superseded is handled like any other. In
    [superseded_start] two [play] calls have been issued, for [track_A] and
    then [track_B]; the error-free completion signal of the first one is not
    discarded: it pops [track_C] off the pending list, makes it [current]
    and issues a third [play] call. *)
Lemma stale_completion_not_discarded_cex :
  let st := superseded_start in
  let first_cb := AfterPlayNext sample_guild in
  play_calls st =
    [MkPlayCall sample_guild track_A first_cb;
     MkPlayCall sample_guild track_B (AfterPlayNext sample_guild)] ∧
  queue_of sample_guild st =
    Some (MkMusicQueue [track_C] (Some track_B) false false) ∧
  voice_clients st !! sample_guild = Some vc_idle ∧
  let st' := run_after first_cb None st in
  queue_of sample_guild st' =
    Some (MkMusicQueue [] (Some track_C) false false) ∧
  play_calls st' =
    play_calls st ++ [MkPlayCall sample_guild track_C (AfterPlayNext sample_guild)] ∧
  st' ≠ st.
Proof.
  cbv zeta. split_and!; by vm_compute.
Qed.

(** C6, amended: no [play] call is tagged with a generation id; the
    callback registered with a call holds the guild id alone, so the
    error-free completion signal of any recorded call of a guild, the latest
    one or an earlier one, runs [play_next] for that guild. When the guild's
    voice client is stored and connected, that advances the guild's queue
    with [get_next] and issues a [play] call for the track returned, if
    any. *)
Theorem completion_runs_play_next (g : Z) (st : Music) (r : positive)
    (q : MusicQueue) (vc : VoiceClient) (k : nat) (call : PlayCall) :
  calls_ok st →
  play_calls st !! k = Some call →
  call_guild call = g →
  queues st !! g = Some r →
  objects st !! r = Some q →
  voice_clients st !! g = Some vc →
  is_connected vc = true →
  call_after call = AfterPlayNext g ∧
  run_after (call_after call) None st = play_next g st ∧
  play_next g st =
    match (get_next q).1 with
    | Some source =>
        voice_play g source (AfterPlayNext g) (set_object r (get_next q).2 st)
    | None => set_object r (get_next q).2 st
    end ∧
  queue_of g (play_next g st) = Some (get_next q).2 ∧
  play_calls (play_next g st) =
    play_calls st ++
    match (get_next q).1 with
    | Some source => [MkPlayCall g source (AfterPlayNext g)]
    | None => []
    end.
Proof.
  intros Hok Hk Hg Hq Ho Hv Hc.
  assert (call_after call = AfterPlayNext g) as Hcb.
  { unfold calls_ok in Hok. rewrite Forall_lookup in Hok.
    rewrite (Hok _ _ Hk). by rewrite Hg. }
  pose proof (play_next_connected _ _ _ _ _ Hq Ho Hv Hc) as Hpn.
  split_and!; [done | by rewrite Hcb | done | |]; rewrite Hpn.
  - destruct (get_next q) as [[src|] q']; unfold queue_of; simpl;
      rewrite Hq; simpl; by rewrite lookup_insert_eq.
  - destruct (get_next q) as [[src|] q']; simpl; [done|].
    by rewrite app_nil_r.
Qed.

(** [completion_runs_play_next] at the first, superseded call of
    [superseded_start]. *)
Lemma completion_runs_play_next_witness :
  let g := sample_guild in
  let st := superseded_start in
  let q := MkMusicQueue [track_C] (Some track_B) false false in
  let call := MkPlayCall g track_A (AfterPlayNext g) in
  call_after call = AfterPlayNext g ∧
  run_after (call_after call) None st = play_next g st ∧
  play_next g st =
    match (get_next q).1 with
    | Some source =>
        voice_play g source (AfterPlayNext g) (set_object 1%positive (get_next q).2 st)
    | None => set_object 1%positive (get_next q).2 st
    end ∧
  queue_of g (play_next g st) = Some (get_next q).2 ∧
  play_calls (play_next g st) =
    play_calls st ++
    match (get_next q).1 with
    | Some source => [MkPlayCall g source (AfterPlayNext g)]
    | None => []
    end.
Proof.
  apply (completion_runs_play_next sample_guild superseded_start 1%positive
           (MkMusicQueue [track_C] (Some track_B) false false) vc_idle 0%nat
           (MkPlayCall sample_guild track_A (AfterPlayNext sample_guild))).
  - unfold calls_ok. compute_done.
  - reflexivity.
  - reflexivity.
  - reflexivity.
  - reflexivity.
  - reflexivity.
  - reflexivity.
Defined.

(** ** Further properties of the queue *)

Lemma get_next_n_snoc (n : nat) (q : MusicQueue) :
  get_next_n (S n) q =
  ((get_next_n n q).1 ++ [(get_next (get_next_n n q).2).1],
   (get_next (get_next_n n q).2).2).
Proof.
  replace (S n) with (n + 1)%nat by lia. rewrite get_next_n_app.
  cbn [get_next_n]. by destruct (get_next (get_next_n n q).2).
Qed.

(** X1: [clear] empties the pending list and [current] and keeps both loop
    flags; after it, any number of [get_next] calls return [None] and leave
    the queue cleared, whatever the loop flags are. *)
Theorem clear_then_get_next (q : MusicQueue) (n : nat) :
  loop_song (clear q) = loop_song q ∧
  loop_queue (clear q) = loop_queue q ∧
  clear (clear q) = clear q ∧
  tracks (clear q) = [] ∧
  get_next_n n (clear q) = (replicate n None, clear q).
Proof.
  split_and!; try done.
  induction n as [|n IH]; [done|].
  rewrite get_next_n_snoc, IH. cbn [fst snd].
  assert (get_next (clear q) = (None, clear q)) as ->.
  { unfold get_next, clear; simpl. by destruct (loop_song q). }
  cbn [fst snd]. f_equal. by rewrite <- replicate_S_end.
Qed.

(** X2: with [loop_queue] on, [get_next] neither loses nor duplicates a
    track: [current] together with the pending list holds the same tracks,
    with the same multiplicities, before and after any number of calls. *)
Theorem get_next_loop_queue_conserves (q : MusicQueue) (n : nat) :
  loop_queue q = true →
  tracks (get_next_n n q).2 ≡ₚ tracks q ∧
  loop_queue (get_next_n n q).2 = true.
Proof.
  intros Hlq. induction n as [|n [IHp IHl]]; [done|].
  rewrite get_next_n_snoc. cbn [snd].
  destruct (get_next_n n q).2 as [p c ls lq]. simpl in IHl. subst lq.
  rewrite <- IHp. unfold get_next, tracks; simpl.
  destruct ls, c as [c|], p as [|h t]; simpl; (split; [|done]);
    rewrite ?app_nil_r; try done.
  rewrite (Permutation_app_comm t [c]). simpl. constructor.
Qed.

Lemma get_next_loop_queue_conserves_witness :
  tracks (get_next_n 5 (MkMusicQueue [track_B; track_C] (Some track_A) false true)).2
    ≡ₚ tracks (MkMusicQueue [track_B; track_C] (Some track_A) false true) ∧
  loop_queue
    (get_next_n 5 (MkMusicQueue [track_B; track_C] (Some track_A) false true)).2 = true.
Proof.
  apply (get_next_loop_queue_conserves
           (MkMusicQueue [track_B; track_C] (Some track_A) false true) 5).
  reflexivity.
Defined.

(** X3: [get_next] never invents a track: whatever it returns, and whatever
    the queue holds afterwards, was [current] or pending before, for any
    flags and any number of calls. *)
Theorem get_next_n_no_new_tracks (q : MusicQueue) (n : nat) (x : YTDLSource) :
  (Some x ∈ (get_next_n n q).1 → x ∈ tracks q) ∧
  (x ∈ tracks (get_next_n n q).2 → x ∈ tracks q).
Proof.
  assert (∀ q', (get_next q').1 = Some x ∨ x ∈ tracks (get_next q').2 →
                x ∈ tracks q') as Hstep.
  { intros [p c ls lq]. unfold get_next, tracks; simpl.
    destruct ls, c as [c|], lq, p as [|h t]; simpl;
      rewrite ?elem_of_cons, ?elem_of_app, ?elem_of_cons, ?elem_of_nil;
      intuition congruence. }
  induction n as [|n [IHr IHt]].
  - split; [|done]. simpl. by intros ?%elem_of_nil.
  - rewrite get_next_n_snoc. cbn [fst snd]. split.
    + intros [H|H]%elem_of_app; [by apply IHr|].
      apply list_elem_of_singleton in H. apply IHt, Hstep. by left.
    + intros H. apply IHt, Hstep. by right.
Qed.

(** One call in queue-loop mode, for the track at index [j] of [l] in
    [current] and the rest of [l] pending in cyclic order. *)
Lemma get_next_loop_queue_step (l : list YTDLSource) (j : nat) (c : YTDLSource) :
  (2 ≤ length l)%nat →
  l !! j = Some c →
  get_next (MkMusicQueue (drop (S j) l ++ take j l) (Some c) false true) =
  (l !! (S j mod length l)%nat,
   MkMusicQueue (drop (S (S j mod length l)) l ++ take (S j mod length l) l)
     (l !! (S j mod length l)%nat) false true).
Proof.
  intros Hlen Hj. pose proof (lookup_lt_Some _ _ _ Hj) as Hlt.
  destruct (decide (S j < length l)%nat) as [Hs|Hs].
  - rewrite Nat.mod_small by done.
    destruct (lookup_lt_is_Some_2 l (S j) Hs) as [c' Hc'].
    rewrite (drop_S _ _ _ Hc'), Hc', (take_S_r _ _ _ Hj).
    unfold get_next; simpl. by rewrite <- app_assoc.
  - assert (S j = length l) as Heq by lia.
    rewrite Heq, Nat.Div0.mod_same, drop_all. simpl.
    destruct l as [|h t]; [simpl in Hlen; lia|].
    destruct j as [|j0]; [simpl in Hlen, Heq; lia|].
    simpl in Hj, Heq. unfold get_next; simpl.
    rewrite drop_0, app_nil_r.
    rewrite <- (take_S_r _ _ _ Hj), take_ge by lia. done.
Qed.

(** X4: in queue-loop mode a queue of at least two tracks and no [current]
    is played round robin for ever: the [n]-th call of [get_next] (counted
    from 0) returns the track at index [n mod length l]. *)
Theorem get_next_loop_queue_round_robin (l : list YTDLSource) (n : nat) :
  (2 ≤ length l)%nat →
  (get_next (get_next_n n (add_all l (MkMusicQueue [] None false true))).2).1 =
  l !! (n mod length l)%nat.
Proof.
  intros Hlen. rewrite add_all_queue. simpl.
  assert (∀ k,
    get_next (get_next_n k (MkMusicQueue l None false true)).2 =
    (l !! (k mod length l)%nat,
     MkMusicQueue (drop (S (k mod length l)) l ++ take (k mod length l) l)
       (l !! (k mod length l)%nat) false true)) as Hinv; [|by rewrite Hinv].
  induction k as [|k IH].
  - rewrite Nat.Div0.mod_0_l. destruct l as [|h t]; [simpl in Hlen; lia|].
    simpl. unfold get_next; simpl. by rewrite drop_0, app_nil_r.
  - rewrite get_next_n_snoc. cbn [snd]. rewrite IH. cbn [snd].
    assert (k mod length l < length l)%nat as Hlt
      by (apply Nat.mod_upper_bound; lia).
    destruct (lookup_lt_is_Some_2 l _ Hlt) as [c Hc]. rewrite Hc.
    rewrite (get_next_loop_queue_step l _ c Hlen Hc).
    replace (S (k mod length l) mod length l)%nat with (S k mod length l)%nat;
      [done|].
    replace (S (k mod length l)) with (1 + k mod length l)%nat by lia.
    rewrite Nat.Div0.add_mod_idemp_r. done.
Qed.

Lemma get_next_loop_queue_round_robin_witness :
  (get_next (get_next_n 7
     (add_all [track_A; track_B; track_C] (MkMusicQueue [] None false true))).2).1 =
  [track_A; track_B; track_C] !! (7 mod length [track_A; track_B; track_C])%nat.
Proof.
  apply (get_next_loop_queue_round_robin [track_A; track_B; track_C] 7).
  simpl. lia.
Defined.

(** X5: queue-loop mode does not repeat a queue of one track: with no
    [current] the track is returned once and every later call returns
    [None], because the pending list is empty when the track ends. *)
Theorem get_next_loop_queue_single (A : YTDLSource) (k : nat) :
  get_next_n (S k) (add A (MkMusicQueue [] None false true)) =
  (Some A :: replicate k None, MkMusicQueue [] (Some A) false true).
Proof.
  cbn [get_next_n]. unfold get_next at 1. simpl.
  by rewrite get_next_n_exhausted.
Qed.

(** ** Further properties of the cog: invariant, isolation, monotonicity *)

Lemma new_music_inv : music_inv new_music.
Proof.
  split; [apply new_music_registry_ok|].
  intros g1 g2 r H. simpl in H. by rewrite lookup_empty in H.
Qed.

Lemma get_queue_inv (g : Z) (st : Music) :
  music_inv st → music_inv (get_queue g st).2.
Proof.
  intros [Hok Hinj]. split; [by apply get_queue_registry_ok|].
  unfold get_queue. destruct (queues st !! g) eqn:E; simpl; [done|].
  assert (∀ g' r', queues st !! g' = Some r' → r' ≠ fresh (dom (objects st)))
    as Hfresh.
  { intros g' r' Hg' ->. apply (is_fresh (dom (objects st))).
    apply elem_of_dom. by eapply Hok. }
  intros g1 g2 r. simpl.
  destruct (decide (g = g1)) as [<-|H1], (decide (g = g2)) as [<-|H2];
    rewrite ?lookup_insert_eq, ?lookup_insert_ne by done; try done.
  - intros [= <-] H. by destruct (Hfresh _ _ H).
  - intros H [= <-]. by destruct (Hfresh _ _ H).
  - apply Hinj.
Qed.

Lemma get_queue_queue_of_other (g g' : Z) (st : Music) :
  registry_ok st → g' ≠ g → queue_of g' (get_queue g st).2 = queue_of g' st.
Proof.
  intros Hok Hne. unfold queue_of, get_queue.
  destruct (queues st !! g) eqn:E; simpl; [done|].
  rewrite lookup_insert_ne by done.
  destruct (queues st !! g') as [r'|] eqn:E'; simpl; [|done].
  destruct (Hok _ _ E') as [q Hq]. rewrite lookup_insert_ne; [done|].
  intros <-. apply (is_fresh (dom (objects st))), elem_of_dom. by eexists.
Qed.

Lemma set_object_queue_of_other (g g' : Z) (r : positive) (q : MusicQueue)
    (st : Music) :
  registry_inj st → queues st !! g = Some r → g' ≠ g →
  queue_of g' (set_object r q st) = queue_of g' st.
Proof.
  intros Hinj Hg Hne. unfold queue_of. simpl.
  destruct (queues st !! g') as [r'|] eqn:E'; simpl; [|done].
  rewrite lookup_insert_ne; [done|]. intros <-. by destruct Hne; eapply Hinj.
Qed.

Lemma set_object_inv (r : positive) (q : MusicQueue) (st : Music) :
  music_inv st → music_inv (set_object r q st).
Proof. intros [Hok Hinj]. split; [by apply set_object_registry_ok | done]. Qed.

Lemma play_next_inv (g : Z) (st : Music) :
  music_inv st → music_inv (play_next g st).
Proof.
  intros Hinv. apply (get_queue_inv g) in Hinv.
  unfold play_next. destruct (get_queue g st) as [r st1]. simpl in Hinv.
  destruct (voice_clients st1 !! g) as [vc|]; [|done].
  destruct (negb (is_connected vc)); [done|].
  destruct (get_next (objects st1 !!! r)) as [[src|] q'];
    by apply set_object_inv.
Qed.

Lemma _play_music_inv (guild : option Z) (voice_client : option VoiceClient)
    (source : YTDLSource) (st : Music) :
  music_inv st → music_inv (_play_music guild voice_client source st).2.
Proof.
  intros Hinv. unfold _play_music. destruct guild as [g|]; [|done].
  apply (get_queue_inv g) in Hinv.
  destruct (get_queue g st) as [r st1]. simpl in Hinv.
  destruct voice_client as [vc|]; [destruct (negb (is_playing vc))|];
    by apply set_object_inv.
Qed.

(** X6: the registry invariant. In the state [Music.__init__] builds, and
    after [play_next], a completion callback or a play request on any state
    that has it, every registry entry points at a stored queue object and
    distinct guild ids are bound to distinct objects. *)
Theorem music_inv_preserved (g : Z) (cb : After) (e : option string)
    (guild : option Z) (voice_client : option VoiceClient)
    (source : YTDLSource) (st : Music) :
  music_inv st →
  music_inv new_music ∧
  music_inv (get_queue g st).2 ∧
  music_inv (play_next g st) ∧
  music_inv (run_after cb e st) ∧
  music_inv (_play_music guild voice_client source st).2.
Proof.
  intros Hinv. split_and!.
  - apply new_music_inv.
  - by apply get_queue_inv.
  - by apply play_next_inv.
  - destruct cb as [g0], e as [err|]; simpl; [done|]. by apply play_next_inv.
  - by apply _play_music_inv.
Qed.

Lemma music_inv_preserved_witness :
  music_inv new_music ∧
  music_inv (get_queue sample_guild new_music).2 ∧
  music_inv (play_next sample_guild new_music) ∧
  music_inv (run_after (AfterPlayNext sample_guild) None new_music) ∧
  music_inv (_play_music (Some sample_guild) (Some vc_idle) track_A new_music).2.
Proof.
  apply (music_inv_preserved sample_guild (AfterPlayNext sample_guild) None
           (Some sample_guild) (Some vc_idle) track_A new_music).
  apply new_music_inv.
Defined.

Lemma play_next_queue_of_other (g g' : Z) (st : Music) :
  music_inv st → g' ≠ g → queue_of g' (play_next g st) = queue_of g' st.
Proof.
  intros Hinv Hne.
  pose proof (get_queue_queue_of_other g g' st (proj1 Hinv) Hne) as Hq.
  pose proof (get_queue_registered g st) as Hreg.
  apply (get_queue_inv g) in Hinv. destruct Hinv as [_ Hinj].
  unfold play_next. destruct (get_queue g st) as [r st1]. simpl in *.
  destruct (voice_clients st1 !! g) as [vc|]; [|done].
  destruct (negb (is_connected vc)); [done|].
  destruct (get_next (objects st1 !!! r)) as [[src|] q'];
    rewrite <- Hq; by apply (set_object_queue_of_other g).
Qed.

(** X7: guilds do not interfere. On a state with the registry invariant,
    [play_next], a completion callback and a play request of one guild
    leave the queue object of every other guild as it was. *)
Theorem other_guild_untouched (g g' : Z) (e : option string)
    (voice_client : option VoiceClient) (source : YTDLSource) (st : Music) :
  music_inv st →
  g' ≠ g →
  queue_of g' (play_next g st) = queue_of g' st ∧
  queue_of g' (run_after (AfterPlayNext g) e st) = queue_of g' st ∧
  queue_of g' (_play_music (Some g) voice_client source st).2 = queue_of g' st.
Proof.
  intros Hinv Hne. split_and!.
  - by apply play_next_queue_of_other.
  - destruct e as [err|]; simpl; [done|]. by apply play_next_queue_of_other.
  - pose proof (get_queue_queue_of_other g g' st (proj1 Hinv) Hne) as Hq.
    pose proof (get_queue_registered g st) as Hreg.
    apply (get_queue_inv g) in Hinv. destruct Hinv as [_ Hinj].
    unfold _play_music. destruct (get_queue g st) as [r st1]. simpl in *.
    destruct voice_client as [vc|]; [destruct (negb (is_playing vc))|];
      simpl; rewrite <- Hq; by apply (set_object_queue_of_other g).
Qed.

Lemma joined_music_inv (vc : VoiceClient) : music_inv (joined_music vc).
Proof.
  split; [intros g r H | intros g1 g2 r H];
    simpl in H; by rewrite lookup_empty in H.
Qed.

Lemma other_guild_untouched_witness :
  let st := after_two_requests in
  queue_of sample_guild (play_next 7 st) = queue_of sample_guild st ∧
  queue_of sample_guild (run_after (AfterPlayNext 7) None st) =
    queue_of sample_guild st ∧
  queue_of sample_guild (_play_music (Some 7) (Some vc_idle) track_B st).2 =
    queue_of sample_guild st.
Proof.
  apply (other_guild_untouched 7 sample_guild None (Some vc_idle) track_B
           after_two_requests).
  - unfold after_two_requests.
    apply _play_music_inv, _play_music_inv, joined_music_inv.
  - unfold sample_guild. lia.
Defined.

Lemma extends_refl (st : Music) : extends st st.
Proof. by split_and!. Qed.

Lemma extends_trans (st1 st2 st3 : Music) :
  extends st1 st2 → extends st2 st3 → extends st1 st3.
Proof.
  intros (? & ? & Hv1 & ? & ?) (? & ? & Hv2 & ? & ?).
  split_and!; by etrans.
Qed.

Lemma get_queue_extends (g : Z) (st : Music) : extends st (get_queue g st).2.
Proof.
  unfold get_queue. destruct (queues st !! g) eqn:E; [apply extends_refl|].
  split_and!; simpl; try done.
  - by apply insert_subseteq.
  - rewrite dom_insert. apply union_subseteq_r.
Qed.

Lemma set_object_extends (r : positive) (q : MusicQueue) (st : Music) :
  extends st (set_object r q st).
Proof.
  split_and!; simpl; try done. rewrite dom_insert. apply union_subseteq_r.
Qed.

Lemma voice_play_extends (g : Z) (src : YTDLSource) (cb : After) (st : Music) :
  extends st (voice_play g src cb st).
Proof. split_and!; simpl; try done. by apply prefix_app_r. Qed.

Lemma play_next_extends (g : Z) (st : Music) : extends st (play_next g st).
Proof.
  pose proof (get_queue_extends g st) as H.
  unfold play_next. destruct (get_queue g st) as [r st1]. simpl in H.
  destruct (voice_clients st1 !! g) as [vc|]; [|done].
  destruct (negb (is_connected vc)); [done|].
  destruct (get_next (objects st1 !!! r)) as [[src|] q'].
  - eapply extends_trans; [done|].
    eapply extends_trans; [apply set_object_extends | apply voice_play_extends].
  - eapply extends_trans; [done | apply set_object_extends].
Qed.

Lemma _play_music_extends (guild : option Z) (voice_client : option VoiceClient)
    (source : YTDLSource) (st : Music) :
  extends st (_play_music guild voice_client source st).2.
Proof.
  unfold _play_music. destruct guild as [g0|]; [|apply extends_refl].
  pose proof (get_queue_extends g0 st) as H.
  destruct (get_queue g0 st) as [r st1]. simpl in H.
  destruct voice_client as [vc|]; [destruct (negb (is_playing vc))|]; simpl.
  - eapply extends_trans; [done|].
    eapply extends_trans; [apply set_object_extends | apply voice_play_extends].
  - eapply extends_trans; [done | apply set_object_extends].
  - eapply extends_trans; [done | apply set_object_extends].
Qed.

Lemma extends_request (guild : option Z) (st st' : Music) :
  extends st st' → request_extends guild st st'.
Proof.
  intros (? & ? & Hv & ? & ?). split_and!; try done; by rewrite Hv.
Qed.

Lemma request_extends_trans (guild : option Z) (st1 st2 st3 : Music) :
  request_extends guild st1 st2 → extends st2 st3 →
  request_extends guild st1 st3.
Proof.
  intros (? & ? & ? & Ho & ? & ?) (? & ? & Hv & ? & ?).
  split_and!; try (by etrans); rewrite Hv; [done|]. apply Ho.
Qed.

Lemma set_voice_client_request (g : Z) (vc : VoiceClient) (st : Music) :
  request_extends (Some g) st (set_voice_client g vc st).
Proof.
  split_and!; simpl; try done.
  - rewrite dom_insert. apply union_subseteq_r.
  - intros g' Hne. rewrite lookup_insert_ne; [done|]. by intros ->.
Qed.

Lemma logger_line_extends (line : string) (st : Music) :
  extends st (logger_line line st).
Proof. split_and!; simpl; try done. by apply prefix_app_r. Qed.

Lemma play_after_join_extends (guild : option Z)
    (voice_client : option VoiceClient) (resolution : Resolution) (st : Music) :
  extends st
    match resolution with
    | Unresolved None => (PlayNotFound, st)
    | Unresolved (Some line) => (PlayNotFound, logger_line line st)
    | Resolved source =>
        let '(embed, self) := _play_music guild voice_client source st in
        (PlayHandled embed, self)
    end.2.
Proof.
  destruct resolution as [source|[line|]]; simpl.
  - pose proof (_play_music_extends guild voice_client source st) as H.
    by destruct (_play_music guild voice_client source st).
  - apply logger_line_extends.
  - apply extends_refl.
Qed.

(** X8: nothing is ever taken away. After [play_next] or a completion
    callback, every registry entry is still bound to the same queue object,
    every queue object is still stored, the voice clients are the same, and
    the earlier [play] calls and log lines are a prefix of the later ones;
    the same holds for the part of [_play_music] from line 311 on. After a
    whole [play] request of the prefix command it holds as well, except for
    the voice clients, because the request may join a channel: no voice
    client entry is removed, the entries of all other guilds are as they
    were, and all are when the context had a voice client. *)
Theorem operations_extend (g : Z) (cb : After) (e : option string)
    (user_voice : option string) (guild : option Z)
    (voice_client : option VoiceClient) (connected : VoiceClient)
    (resolution : Resolution) (source : YTDLSource) (st : Music) :
  extends st (play_next g st) ∧
  extends st (run_after cb e st) ∧
  extends st (_play_music guild voice_client source st).2 ∧
  request_extends guild st
    (play user_voice guild voice_client connected resolution st).2 ∧
  (is_Some voice_client →
   extends st (play user_voice guild voice_client connected resolution st).2) ∧
  (∀ g0 r, queues st !! g0 = Some r →
           queues (run_after cb e st) !! g0 = Some r ∧
           queues (play user_voice guild voice_client connected resolution st).2
             !! g0 = Some r).
Proof.
  assert (extends st (run_after cb e st)) as Hr.
  { destruct cb as [g0], e as [err|]; simpl; [|apply play_next_extends].
    split_and!; simpl; try done. by apply prefix_app_r. }
  assert (request_extends guild st
            (play user_voice guild voice_client connected resolution st).2) as Hp.
  { unfold play. destruct user_voice as [ch|];
      [|apply extends_request, extends_refl].
    destruct voice_client as [vc|].
    - apply extends_request, play_after_join_extends.
    - cbn [_join_voice snd]. destruct guild as [g1|].
      + eapply request_extends_trans;
          [apply set_voice_client_request | apply play_after_join_extends].
      + apply extends_request, play_after_join_extends. }
  split_and!;
    [apply play_next_extends | done | apply _play_music_extends | done | |].
  - intros [vc ->]. unfold play. destruct user_voice as [ch|];
      [apply play_after_join_extends | apply extends_refl].
  - intros g0 r Hg. destruct Hr as [Hr _], Hp as [Hp _].
    split; by eapply lookup_weaken.
Qed.

(** ** Completion-driven playback *)

Lemma completions_state (g : Z) (st : Music) (r : positive)
    (l : list YTDLSource) (cur : option YTDLSource) (vc : VoiceClient) (n : nat) :
  queues st !! g = Some r →
  objects st !! r = Some (MkMusicQueue l cur false false) →
  voice_clients st !! g = Some vc →
  is_connected vc = true →
  completions n g st =
  {| objects :=
       <[r := MkMusicQueue (drop n l) (from_option Some cur (last (take n l)))
                false false]> (objects st);
     queues := queues st;
     voice_clients := voice_clients st;
     play_calls :=
       play_calls st ++ ((λ s, MkPlayCall g s (AfterPlayNext g)) <$> take n l);
     log := log st |}.
Proof.
  intros Hq Ho Hv Hc. induction n as [|n IH].
  - unfold completions. simpl. rewrite ?drop_0.
    rewrite app_nil_r, (insert_id _ _ _ Ho). by destruct st.
  - change (completions (S n) g st)
      with (run_after (AfterPlayNext g) None (completions n g st)).
    rewrite IH. cbn [run_after].
    erewrite play_next_connected;
      [| exact Hq | simpl; apply lookup_insert_eq | exact Hv | exact Hc].
    destruct (l !! n) as [x|] eqn:Hn.
    + rewrite (drop_S _ _ _ Hn), (take_S_r _ _ _ Hn).
      unfold get_next; simpl. unfold voice_play, set_object; simpl.
      rewrite insert_insert_eq, last_snoc, fmap_app, <- app_assoc. done.
    + apply lookup_ge_None in Hn.
      rewrite !drop_ge, !take_ge by lia.
      unfold get_next; simpl. unfold set_object; simpl.
      by rewrite insert_insert_eq.
Qed.

(** X9: with both loop flags off and a connected voice client stored for
    the guild, [n] error-free completion signals hand the first [n] pending
    tracks to [voice_client.play], one call each and in queue order, and
    leave the remaining ones pending; once the pending list is used up,
    further signals issue no call. Nothing is logged. *)
Theorem completions_play_pending_in_order (g : Z) (st : Music) (r : positive)
    (l : list YTDLSource) (cur : option YTDLSource) (vc : VoiceClient) (n : nat) :
  queues st !! g = Some r →
  objects st !! r = Some (MkMusicQueue l cur false false) →
  voice_clients st !! g = Some vc →
  is_connected vc = true →
  play_calls (completions n g st) =
    play_calls st ++ ((λ s, MkPlayCall g s (AfterPlayNext g)) <$> take n l) ∧
  queue_of g (completions n g st) =
    Some (MkMusicQueue (drop n l) (from_option Some cur (last (take n l)))
            false false) ∧
  log (completions n g st) = log st ∧
  ((length l ≤ n)%nat →
   play_calls (completions (S n) g st) = play_calls (completions n g st)).
Proof.
  intros Hq Ho Hv Hc.
  rewrite !(completions_state g st r l cur vc) by done.
  unfold queue_of. simpl. rewrite Hq. simpl. rewrite lookup_insert_eq.
  split_and!; try done.
  intros Hn. by rewrite !take_ge by lia.
Qed.

Lemma completions_play_pending_in_order_witness :
  let st := set_object 1%positive
              (MkMusicQueue [track_B; track_C] (Some track_A) false false)
              after_two_requests in
  play_calls (completions 3 sample_guild st) =
    play_calls st ++
    ((λ s, MkPlayCall sample_guild s (AfterPlayNext sample_guild))
       <$> take 3 [track_B; track_C]) ∧
  queue_of sample_guild (completions 3 sample_guild st) =
    Some (MkMusicQueue (drop 3 [track_B; track_C])
            (from_option Some (Some track_A) (last (take 3 [track_B; track_C])))
            false false) ∧
  log (completions 3 sample_guild st) = log st ∧
  ((length [track_B; track_C] ≤ 3)%nat →
   play_calls (completions 4 sample_guild st) =
   play_calls (completions 3 sample_guild st)).
Proof.
  apply (completions_play_pending_in_order sample_guild
           (set_object 1%positive
              (MkMusicQueue [track_B; track_C] (Some track_A) false false)
              after_two_requests)
           1%positive [track_B; track_C] (Some track_A) vc_idle 3).
  - reflexivity.
  - reflexivity.
  - reflexivity.
  - reflexivity.
Defined.

(** ** Play requests, joining and the [play] command *)

Lemma _play_music_unfold (g : Z) (voice_client : option VoiceClient)
    (source : YTDLSource) (st : Music) :
  _play_music (Some g) voice_client source st =
  let r := (get_queue g st).1 in
  let st1 := (get_queue g st).2 in
  let q := objects st1 !!! r in
  match voice_client with
  | Some (MkVoiceClient _ false) =>
      (now_playing source,
       voice_play g source (AfterPlayNext g)
         (set_object r
            (MkMusicQueue (queue q) (Some source) (loop_song q) (loop_queue q))
            st1))
  | _ =>
      (Some (AddedToQueue source (length (queue q ++ [source]))),
       set_object r (add source q) st1)
  end.
Proof.
  unfold _play_music. destruct (get_queue g st) as [r st1]. simpl.
  by destruct voice_client as [[c []]|].
Qed.





(** X11: [_join_voice] never touches a queue, the registry of queues, the
    trace of [play] calls or the log. It stores a voice client in
    [self.voice_clients] in one case only: the user is in a voice channel,
    the context has no voice client and has a guild; then the client
    [channel.connect()] returned is stored under that guild id and no other
    entry changes. When the context already has a voice client it is moved
    and nothing is stored. *)
Theorem join_voice_effects (user_voice : option string) (guild : option Z)
    (voice_client : option VoiceClient) (connected : VoiceClient) (st : Music) :
  let outcome := (_join_voice user_voice guild voice_client connected st).1 in
  let st' := (_join_voice user_voice guild voice_client connected st).2 in
  objects st' = objects st ∧
  queues st' = queues st ∧
  play_calls st' = play_calls st ∧
  log st' = log st ∧
  (user_voice = None → outcome = JoinNotInVoice ∧ st' = st) ∧
  (∀ ch vc, user_voice = Some ch → voice_client = Some vc →
            outcome = JoinMoved ch ∧ st' = st) ∧
  (∀ ch, user_voice = Some ch → voice_client = None → guild = None →
         outcome = JoinConnected ch ∧ st' = st) ∧
  (∀ ch g, user_voice = Some ch → voice_client = None → guild = Some g →
           outcome = JoinConnected ch ∧
           voice_clients st' !! g = Some connected ∧
           ∀ g', g' ≠ g → voice_clients st' !! g' = voice_clients st !! g').
Proof.
  intros outcome st'. unfold outcome, st', _join_voice.
  destruct user_voice as [ch|], voice_client as [vc|], guild as [g|]; simpl;
    split_and!; try done; try (by intros; simplify_eq).
  intros ch0 g0 [= <-] _ [= <-]. split_and!; [done | apply lookup_insert_eq |].
  intros g' Hne. by rewrite lookup_insert_ne.
Qed.

Lemma play_next_unbound (g : Z) (st : Music) :
  voice_clients st !! g = None → play_next g st = (get_queue g st).2.
Proof.
  intros Hv. unfold play_next. destruct (get_queue g st) as [r st1] eqn:E.
  pose proof (get_queue_frame g st) as (Hvc & _). rewrite E in Hvc.
  simpl in *. by rewrite Hvc, Hv.
Qed.

Lemma _play_music_registered (g : Z) (voice_client : option VoiceClient)
    (source : YTDLSource) (st : Music) :
  queues (_play_music (Some g) voice_client source st).2 !! g =
  Some (get_queue g st).1.
Proof.
  rewrite _play_music_unfold. cbv zeta.
  destruct voice_client as [[c []]|]; simpl; apply get_queue_registered.
Qed.

(** X12: a voice client the cog did not connect itself is never entered in
    [self.voice_clients], and then the queue is stranded. When the context
    of a play request already has a voice client while the cog has none
    stored for the guild, the request does not store it (nor does
    [_join_voice], which only moves it); afterwards error-free completion
    signals change nothing at all, however many arrive: no pending track is
    ever handed to [voice_client.play]. *)
Theorem unregistered_voice_client_strands_queue (g : Z) (ch : string)
    (vc connected : VoiceClient) (source : YTDLSource) (st : Music) (n : nat) :
  voice_clients st !! g = None →
  let s1 := (play (Some ch) (Some g) (Some vc) connected (Resolved source) st).2 in
  voice_clients s1 !! g = None ∧
  (_join_voice (Some ch) (Some g) (Some vc) connected s1).2 = s1 ∧
  completions n g s1 = s1.
Proof.
  intros Hv s1.
  assert (s1 = (_play_music (Some g) (Some vc) source st).2) as Hs1.
  { unfold s1, play. by destruct (_play_music (Some g) (Some vc) source st). }
  assert (voice_clients s1 !! g = None) as Hv1.
  { rewrite Hs1.
    destruct (_play_music_extends (Some g) (Some vc) source st)
      as (_ & _ & -> & _). done. }
  split_and!; [done | done |].
  induction n as [|n IH]; [done|].
  change (completions (S n) g s1)
    with (run_after (AfterPlayNext g) None (completions n g s1)).
  rewrite IH. simpl. rewrite (play_next_unbound _ _ Hv1).
  erewrite get_queue_existing; [done|].
  rewrite Hs1. apply _play_music_registered.
Qed.

Lemma unregistered_voice_client_strands_queue_witness :
  let s1 := (play (Some "General"%string) (Some sample_guild) (Some vc_playing)
               vc_idle (Resolved track_B)
               (set_object 1%positive new_queue new_music)).2 in
  voice_clients s1 !! sample_guild = None ∧
  (_join_voice (Some "General"%string) (Some sample_guild) (Some vc_playing)
     vc_idle s1).2 = s1 ∧
  completions 3 sample_guild s1 = s1.
Proof.
  apply (unregistered_voice_client_strands_queue sample_guild "General"
           vc_playing vc_idle track_B (set_object 1%positive new_queue new_music) 3).
  reflexivity.
Defined.

(** X13: requests of the prefix command that leave the queues alone. A
    [play] request of a user who is in no voice channel leaves the cog as it
    was. Outside a guild nothing but the log can change, even when the track
    was resolved. And when the track cannot be resolved, the queues, the
    registry and the [play] calls are unchanged, the log gains exactly the
    line the resolver wrote, if it wrote one, and the voice clients are
    unchanged when the context had one. *)
Theorem play_without_effect (ch : string) (guild : option Z)
    (voice_client : option VoiceClient) (connected : VoiceClient)
    (resolution : Resolution) (logged : option string) (st : Music) :
  play None guild voice_client connected resolution st = (PlayNotInVoice, st) ∧
  (let r := play (Some ch) None voice_client connected resolution st in
   objects r.2 = objects st ∧
   queues r.2 = queues st ∧
   voice_clients r.2 = voice_clients st ∧
   play_calls r.2 = play_calls st) ∧
  (let r := play (Some ch) guild voice_client connected (Unresolved logged) st in
   r.1 = PlayNotFound ∧
   objects r.2 = objects st ∧
   queues r.2 = queues st ∧
   play_calls r.2 = play_calls st ∧
   log r.2 = log st ++ option_list logged ∧
   (is_Some voice_client → voice_clients r.2 = voice_clients st)).
Proof.
  split_and!; try done; unfold play; simpl; try (intros [vc ->]);
    destruct guild, resolution as [src|[line|]], logged;
    try destruct voice_client; simpl; by rewrite ?app_nil_r.
Qed.



(** ** [Utils.format_duration] and [Config.get_embed_color] *)

Lemma format_02d_two_digits (n : Z) :
  0 ≤ n < 100 →
  format_02d n = String (digit_char (n `div` 10)) (String (digit_char (n `mod` 10)) "").
Proof.
  intros Hn.
  assert (Forall (λ k, format_02d k =
            String (digit_char (k `div` 10)) (String (digit_char (k `mod` 10)) ""))
          (seqZ 0 100)) as Hall by (by vm_compute; repeat constructor).
  rewrite Forall_forall in Hall. apply Hall, elem_of_seqZ. lia.
Qed.

(** X15: for a duration from 0 up to 99 minutes 59 seconds
    [format_duration] gives exactly five characters, "MM:SS": the tens and
    units digits of the whole minutes, a colon, and the tens and units
    digits of the remaining seconds, which are below 60. *)
Theorem format_duration_mm_ss (seconds : Z) :
  0 ≤ seconds < 6000 →
  format_duration seconds =
    String (digit_char (seconds `div` 600))
      (String (digit_char ((seconds `div` 60) `mod` 10)) "")
    +:+ ":" +:+
    String (digit_char ((seconds `mod` 60) `div` 10))
      (String (digit_char (seconds `mod` 10)) "") ∧
  String.length (format_duration seconds) = 5%nat.
Proof.
  intros Hs. unfold format_duration.
  assert (0 ≤ seconds `div` 60 < 100) as Hm
    by (split; [apply Z.div_pos; lia | apply Z.div_lt_upper_bound; lia]).
  assert (0 ≤ seconds `mod` 60 < 100) as Hr
    by (pose proof (Z.mod_pos_bound seconds 60); lia).
  rewrite (format_02d_two_digits _ Hm), (format_02d_two_digits _ Hr).
  rewrite Z.div_div by lia.
  rewrite (Z.mod_mod_divide seconds 60 10) by (by exists 6). done.
Qed.

Lemma format_duration_mm_ss_witness :
  format_duration 125 =
    String (digit_char (125 `div` 600))
      (String (digit_char ((125 `div` 60) `mod` 10)) "")
    +:+ ":" +:+
    String (digit_char ((125 `mod` 60) `div` 10))
      (String (digit_char (125 `mod` 10)) "") ∧
  String.length (format_duration 125) = 5%nat.
Proof. apply (format_duration_mm_ss 125). lia. Defined.

Lemma get_embed_color_cases (type : string) :
  get_embed_color type =
  if decide ("success"%string = type) then COLOR_SUCCESS
  else if decide ("error"%string = type) then COLOR_ERROR
  else if decide ("warning"%string = type) then COLOR_WARNING
  else if decide ("info"%string = type) then COLOR_INFO
  else if decide ("music"%string = type) then COLOR_MUSIC
  else COLOR_INFO.
Proof.
  unfold get_embed_color, colors. simpl.
  rewrite !lookup_insert, lookup_empty.
  by repeat case_decide.
Qed.

(** X16: [get_embed_color] knows five type names, spelled in lower case;
    any other string, whatever it is, gets the info colour, and every
    colour it returns is a 24-bit RGB value. *)
Theorem get_embed_color_total (type : string) :
  get_embed_color "success" = 0x00ff00 ∧
  get_embed_color "error" = 0xff0000 ∧
  get_embed_color "warning" = 0xffaa00 ∧
  get_embed_color "info" = 0x0099ff ∧
  get_embed_color "music" = 0x9932cc ∧
  (type ∉ ["success"; "error"; "warning"; "music"]%string →
   get_embed_color type = COLOR_INFO) ∧
  0 ≤ get_embed_color type ≤ 0xffffff ∧
  embed_color (create_embed "t" None type) = get_embed_color type.
Proof.
  split_and!; try done.
  - intros Hnot. rewrite get_embed_color_cases.
    rewrite !elem_of_cons, elem_of_nil in Hnot.
    repeat case_decide; try done; exfalso; apply Hnot; auto.
  - rewrite get_embed_color_cases. repeat case_decide; by vm_compute.
  - rewrite get_embed_color_cases. repeat case_decide; by vm_compute.
Qed.

(** ** Strings: [in], [split] and the Spotify track id *)

Lemma str_app_cons (c : Ascii.ascii) (s t : string) :
  String c s +:+ t = String c (s +:+ t).
Proof. reflexivity. Qed.

Lemma str_app_nil_l (t : string) : "" +:+ t = t.
Proof. reflexivity. Qed.

Lemma str_app_nil_r (s : string) : s +:+ "" = s.
Proof.
  induction s as [|c s IH]; [done|]. by rewrite str_app_cons, IH.
Qed.

Lemma str_app_assoc (s1 s2 s3 : string) :
  (s1 +:+ s2) +:+ s3 = s1 +:+ (s2 +:+ s3).
Proof.
  induction s1 as [|c s1 IH]; [done|]. by rewrite !str_app_cons, IH.
Qed.

Lemma prefix_nil (s : string) : String.prefix "" s = true.
Proof. by destruct s. Qed.

Lemma prefix_cons (a b : Ascii.ascii) (p s : string) :
  String.prefix (String a p) (String b s) =
  bool_decide (a = b) && String.prefix p s.
Proof.
  simpl. destruct (Ascii.ascii_dec a b); case_bool_decide; simpl; congruence.
Qed.

Lemma prefix_app_self (p s : string) : String.prefix p (p +:+ s) = true.
Proof.
  induction p as [|c p IH]; [apply prefix_nil|].
  rewrite str_app_cons, prefix_cons, IH. by rewrite bool_decide_eq_true_2.
Qed.

Lemma prefix_app_drop (pre sep rest : string) :
  String.prefix sep (pre +:+ rest) = true →
  (String.length pre ≤ String.length sep)%nat →
  String.prefix (string_drop (String.length pre) sep) rest = true.
Proof.
  revert sep. induction pre as [|a pre IH]; intros sep; [by intros|].
  destruct sep as [|b sep]; [simpl; lia|].
  rewrite str_app_cons, prefix_cons. intros [_ H]%andb_true_iff Hlen.
  simpl in *. apply IH; [done | lia].
Qed.

Lemma prefix_app_short (x y t : string) :
  String.prefix x (y +:+ t) = true →
  (String.length x ≤ String.length y)%nat →
  String.prefix x y = true.
Proof.
  revert y. induction x as [|a x IH]; intros y; [intros; apply prefix_nil|].
  destruct y as [|b y]; [simpl; lia|].
  rewrite str_app_cons, !prefix_cons.
  intros [Hab H]%andb_true_iff Hlen. rewrite Hab. simpl in *.
  apply IH; [done | lia].
Qed.

Lemma string_drop_length (n : nat) (s : string) :
  String.length (string_drop n s) = (String.length s - n)%nat.
Proof.
  revert s. induction n as [|n IH]; intros [|c s]; simpl; try done.
Qed.

(** An occurrence of [sep] that starts inside [pre] and runs into the
    [sep] that follows makes [sep] overlap itself. *)
Lemma prefix_overlap (sep pre t : string) :
  borders sep = [] →
  pre ≠ ""%string →
  String.prefix sep (pre +:+ sep +:+ t) = true →
  (String.length sep ≤ String.length pre)%nat.
Proof.
  intros Hb Hpre Hp.
  destruct (decide (String.length sep ≤ String.length pre)%nat) as [|Hlt];
    [done|exfalso].
  assert (String.length pre ∈ borders sep) as Hin;
    [|by rewrite Hb in Hin; apply elem_of_nil in Hin].
  unfold borders. apply list_elem_of_filter. split.
  - apply prefix_app_drop in Hp; [|lia].
    apply (prefix_app_short _ _ t); [done|].
    rewrite string_drop_length. lia.
  - apply elem_of_seq. destruct pre; [done|]. simpl in *. lia.
Qed.

Lemma contains_cons (sep : string) (c : Ascii.ascii) (s : string) :
  contains sep (String c s) = String.prefix sep (String c s) || contains sep s.
Proof. reflexivity. Qed.

Lemma contains_prefix_false (sep t : string) :
  contains sep t = false → String.prefix sep t = false.
Proof.
  destruct t; [simpl; by intros [? _]%orb_false_iff|].
  rewrite contains_cons. by intros [? _]%orb_false_iff.
Qed.

Lemma contains_prefix_true (sep t : string) :
  String.prefix sep t = true → contains sep t = true.
Proof.
  destruct t; [simpl; by intros ->|]. rewrite contains_cons. by intros ->.
Qed.

Lemma contains_app_sep (sep pre rest : string) :
  contains sep (pre +:+ sep +:+ rest) = true.
Proof.
  induction pre as [|c pre IH].
  - rewrite str_app_nil_l. apply contains_prefix_true, prefix_app_self.
  - rewrite str_app_cons, contains_cons, IH. apply orb_true_r.
Qed.

Lemma split_go_cons (sep : string) (part : string) (c : Ascii.ascii) (s : string) :
  split_go sep 0 part (String c s) =
  if String.prefix sep (String c s)
  then part :: split_go sep (String.length sep - 1) "" s
  else split_go sep 0 (part +:+ String c "") s.
Proof. reflexivity. Qed.

(** A text without an occurrence of [sep] is one part. *)
Lemma split_go_none (sep t part : string) :
  contains sep t = false → split_go sep 0 part t = [part +:+ t].
Proof.
  revert part. induction t as [|c t IH]; intros part Hc.
  - simpl. by rewrite str_app_nil_r.
  - rewrite split_go_cons, (contains_prefix_false _ _ Hc).
    rewrite contains_cons in Hc. apply orb_false_iff in Hc as [_ Hc].
    rewrite IH by done. by rewrite str_app_assoc.
Qed.

Lemma split_go_skip (sep u v part : string) :
  split_go sep (String.length u) part (u +:+ v) = split_go sep 0 part v.
Proof.
  induction u as [|c u IH]; [by destruct v|].
  rewrite str_app_cons. simpl. apply IH.
Qed.

Lemma split_go_last (sep t : string) :
  borders sep = [] →
  sep ≠ ""%string →
  contains sep t = false →
  ∀ pre k part, (k ≤ String.length pre)%nat →
    last (split_go sep k part (pre +:+ sep +:+ t)) = Some t.
Proof.
  intros Hb Hsep Ht. induction pre as [|c pre IH]; intros k part Hk.
  - simpl in Hk. assert (k = 0)%nat as -> by lia. rewrite str_app_nil_l.
    destruct sep as [|a sep']; [done|].
    rewrite str_app_cons, split_go_cons, <- str_app_cons, prefix_app_self.
    replace (String.length (String a sep') - 1)%nat with (String.length sep')
      by (simpl; lia).
    rewrite split_go_skip, (split_go_none _ _ _ Ht). done.
  - simpl in Hk. rewrite str_app_cons. destruct k as [|k].
    + rewrite split_go_cons, <- str_app_cons.
      destruct (String.prefix sep (String c pre +:+ sep +:+ t)) eqn:Hp.
      * apply (prefix_overlap _ _ _ Hb) in Hp; [|done]. simpl in Hp.
        rewrite last_cons, IH; [done|]. destruct sep; [done|]. simpl in *. lia.
      * apply IH. lia.
    + simpl. apply IH. lia.
Qed.

Lemma prefix_char (a c : Ascii.ascii) (s : string) :
  String.prefix (String a "") (String c s) = bool_decide (a = c).
Proof. rewrite prefix_cons, prefix_nil. apply andb_true_r. Qed.

Lemma contains_char_cons (a c : Ascii.ascii) (s : string) :
  contains (String a "") (String c s) =
  bool_decide (a = c) || contains (String a "") s.
Proof. by rewrite contains_cons, prefix_char. Qed.

Lemma contains_char_app (a : Ascii.ascii) (s1 s2 : string) :
  contains (String a "") (s1 +:+ s2) =
  contains (String a "") s1 || contains (String a "") s2.
Proof.
  induction s1 as [|c s1 IH].
  - rewrite str_app_nil_l. by destruct s2.
  - rewrite str_app_cons, !contains_char_cons, IH. by rewrite orb_assoc.
Qed.

(** The first part of a split at a single character is the text before its
    first occurrence. *)
Lemma split_go_char_head (a : Ascii.ascii) (id rest part : string) :
  contains (String a "") id = false →
  head (split_go (String a "") 0 part (id +:+ String a rest)) = Some (part +:+ id).
Proof.
  revert part. induction id as [|c id IH]; intros part Hc.
  - rewrite str_app_nil_l, split_go_cons, prefix_char, bool_decide_eq_true_2
      by done.
    simpl. by rewrite str_app_nil_r.
  - rewrite contains_char_cons in Hc. apply orb_false_iff in Hc as [Hac Hc].
    rewrite str_app_cons, split_go_cons, prefix_char, Hac.
    rewrite IH by done. by rewrite str_app_assoc.
Qed.

Lemma split_go_char_head_clean (a : Ascii.ascii) (s part : string) :
  contains (String a "") part = false →
  ∃ h, head (split_go (String a "") 0 part s) = Some h ∧
       contains (String a "") h = false.
Proof.
  revert part. induction s as [|c s IH]; intros part Hc.
  - by exists part.
  - rewrite split_go_cons, prefix_char. case_bool_decide as Hac.
    + by exists part.
    + apply IH. rewrite contains_char_app, Hc, contains_char_cons. simpl.
      by rewrite bool_decide_eq_false_2.
Qed.

(** X17: the track id of a Spotify track URL is read back exactly. For any
    text before "track/", an id without "?" is returned unchanged, whether
    the URL ends with the id or goes on with "?" and a query, as long as
    "track/" does not occur again after the id. *)
Theorem spotify_track_id_url (pre id : string) :
  contains "?" id = false →
  (contains "track/" id = false →
   spotify_track_id (pre +:+ "track/" +:+ id) = Some id) ∧
  (∀ query, contains "track/" (id +:+ "?" +:+ query) = false →
            spotify_track_id (pre +:+ "track/" +:+ id +:+ "?" +:+ query) = Some id).
Proof.
  intros Hq. split.
  - intros Ht. unfold spotify_track_id, split.
    rewrite contains_app_sep.
    rewrite (split_go_last "track/" id); [|done|done|done|lia]. simpl.
    by rewrite (split_go_none _ _ _ Hq).
  - intros query Ht. unfold spotify_track_id, split.
    rewrite contains_app_sep.
    rewrite (split_go_last "track/" (id +:+ "?" +:+ query));
      [|done|done|done|lia].
    simpl. rewrite (str_app_cons _ "" query), str_app_nil_l.
    by rewrite (split_go_char_head _ _ _ _ Hq).
Qed.

Lemma spotify_track_id_url_witness :
  (contains "track/" "6rqhFgbbKwnb9MLmUQDhG6" = false →
   spotify_track_id
     ("https://open.spotify.com/" +:+ "track/" +:+ "6rqhFgbbKwnb9MLmUQDhG6")
   = Some "6rqhFgbbKwnb9MLmUQDhG6"%string) ∧
  (∀ query,
     contains "track/" ("6rqhFgbbKwnb9MLmUQDhG6" +:+ "?" +:+ query) = false →
     spotify_track_id
       ("https://open.spotify.com/" +:+ "track/" +:+ "6rqhFgbbKwnb9MLmUQDhG6"
        +:+ "?" +:+ query)
     = Some "6rqhFgbbKwnb9MLmUQDhG6"%string).
Proof.
  apply (spotify_track_id_url "https://open.spotify.com/" "6rqhFgbbKwnb9MLmUQDhG6").
  reflexivity.
Defined.

(** X18: the track id of a Spotify URI is read back exactly: when the text
    holds no "track/", everything after the last "spotify:track:" is the
    id, and nothing is cut off it, not even a "?". *)
Theorem spotify_track_id_uri (pre id : string) :
  contains "track/" (pre +:+ "spotify:track:" +:+ id) = false →
  contains "spotify:track:" id = false →
  spotify_track_id (pre +:+ "spotify:track:" +:+ id) = Some id.
Proof.
  intros Hs Ht. unfold spotify_track_id, split.
  rewrite Hs, contains_app_sep.
  by rewrite (split_go_last "spotify:track:" id); [|done|done|done|lia].
Qed.

Lemma spotify_track_id_uri_witness :
  spotify_track_id ("" +:+ "spotify:track:" +:+ "6rqhFgbbKwnb9MLmUQDhG6?x") =
  Some "6rqhFgbbKwnb9MLmUQDhG6?x"%string.
Proof.
  apply (spotify_track_id_uri "" "6rqhFgbbKwnb9MLmUQDhG6?x"); reflexivity.
Defined.

Lemma split_go_nonempty (sep : string) (k : nat) (part s : string) :
  split_go sep k part s ≠ [].
Proof.
  revert k part. induction s as [|c s IH]; intros k part; [done|].
  destruct k as [|k]; [|apply IH].
  rewrite split_go_cons. by destruct (String.prefix sep (String c s)).
Qed.

(** X19: no track id is found exactly when the text holds neither "track/"
    nor "spotify:track:"; and an id taken from a text with "track/" never
    holds a "?". *)
Theorem spotify_track_id_cases (spotify_url : string) :
  (spotify_track_id spotify_url = None ↔
   contains "track/" spotify_url = false ∧
   contains "spotify:track:" spotify_url = false) ∧
  (contains "track/" spotify_url = true →
   ∃ id, spotify_track_id spotify_url = Some id ∧ contains "?" id = false).
Proof.
  unfold spotify_track_id. split.
  - destruct (contains "track/" spotify_url),
             (contains "spotify:track:" spotify_url);
      split; (intros [? ?] || intros ?); try split; congruence.
  - intros ->. unfold split.
    destruct (split_go_char_head_clean _
                (default ""%string (last (split_go "track/" 0 "" spotify_url)))
                "" (eq_refl : contains "?" "" = false)) as (h & Hh & Hc).
    exists h. by rewrite Hh.
Qed.

(** ** [YTDLSource.create_source] *)

(** X20: a search that mentions Spotify never reaches YouTube as it is.
    When it contains "spotify.com" or "spotify:", the result is [None],
    whatever youtube-dl would answer, if the Spotify client is missing, if
    the text holds no track id, if the Spotify call fails or if the track
    has no artist; otherwise the one lookup made is for
    "ytsearch:<first artist> <name>". *)
Theorem create_source_spotify
    (spotify_client : option (string → option SpotifyTrack))
    (extract_info : string → ExtractResult) (ffmpeg : string → bool)
    (search : string) :
  contains "spotify.com" search || contains "spotify:" search = true →
  (spotify_client = None → create_source spotify_client extract_info ffmpeg search = None) ∧
  (spotify_track_id search = None →
   create_source spotify_client extract_info ffmpeg search = None) ∧
  (∀ track id, spotify_client = Some track → spotify_track_id search = Some id →
     match track id with
     | Some t =>
         match sp_artists t with
         | artist :: _ =>
             create_source spotify_client extract_info ffmpeg search =
             source_of_result ffmpeg
               (extract_info ("ytsearch:" +:+ artist +:+ " " +:+ sp_name t))
         | [] => create_source spotify_client extract_info ffmpeg search = None
         end
     | None => create_source spotify_client extract_info ffmpeg search = None
     end).
Proof.
  intros Hs. unfold create_source, lookup_text, _get_spotify_track_info.
  rewrite Hs. split_and!.
  - by intros ->.
  - intros ->. by destruct spotify_client.
  - intros track id -> ->. destruct (track id) as [t|]; [|done].
    by destruct (sp_artists t).
Qed.

Lemma create_source_spotify_witness :
  let client : option (string → option SpotifyTrack) :=
    Some (λ _, Some (MkSpotifyTrack "Song" ["Band"; "Guest"] "Album" 215999
                       "https://open.spotify.com/track/abc")) in
  let extract_info : string → ExtractResult := λ _, ExtractNothing in
  let search := "https://open.spotify.com/track/abc?si=1"%string in
  (client = None → create_source client extract_info (λ _, true) search = None) ∧
  (spotify_track_id search = None →
   create_source client extract_info (λ _, true) search = None) ∧
  (∀ track id, client = Some track → spotify_track_id search = Some id →
     match track id with
     | Some t =>
         match sp_artists t with
         | artist :: _ =>
             create_source client extract_info (λ _, true) search =
             source_of_result (λ _, true)
               (extract_info ("ytsearch:" +:+ artist +:+ " " +:+ sp_name t))
         | [] => create_source client extract_info (λ _, true) search = None
         end
     | None => create_source client extract_info (λ _, true) search = None
     end).
Proof.
  apply (create_source_spotify
           (Some (λ _, Some (MkSpotifyTrack "Song" ["Band"; "Guest"] "Album"
                               215999 "https://open.spotify.com/track/abc")))
           (λ _, ExtractNothing) (λ _, true)
           "https://open.spotify.com/track/abc?si=1").
  reflexivity.
Defined.

(** X21: every source [create_source] returns has a URL, one that
    [FFmpegPCMAudio] accepted, and was built from a dictionary youtube-dl
    returned for the looked-up text: from the first entry when the answer
    has a non-empty ['entries'], from the answer itself otherwise. When
    youtube-dl raises or returns nothing, the result is [None]. *)
Theorem create_source_result
    (spotify_client : option (string → option SpotifyTrack))
    (extract_info : string → ExtractResult) (ffmpeg : string → bool)
    (search : string) (source : YTDLSource) :
  create_source spotify_client extract_info ffmpeg search = Some source →
  ∃ text entries info data filename,
    lookup_text spotify_client search = Some text ∧
    extract_info text = ExtractInfo entries info ∧
    data = match entries with
           | Some (first :: _) => first
           | _ => Some info
           end ∧
    data = Some {| info_url := Some filename;
                   info_title := title source;
                   info_duration := duration source;
                   info_thumbnail := thumbnail source;
                   info_uploader := uploader source |} ∧
    url source = Some filename ∧
    ffmpeg filename = true.
Proof.
  unfold create_source.
  destruct (lookup_text spotify_client search) as [text|]; [|done].
  destruct (extract_info text) as [| |entries info] eqn:E; [done|done|].
  unfold source_of_result.
  set (data := match entries with Some (first :: _) => first | _ => Some info end).
  destruct data as [[u t d th up]|] eqn:Hd; [|done]. simpl.
  destruct u as [filename|]; [|done].
  destruct (ffmpeg filename) eqn:Hf; [|done].
  intros [= <-]. simpl.
  by exists text, entries, info, (Some (MkInfo (Some filename) t d th up)), filename.
Qed.

Lemma create_source_result_witness :
  let first := MkInfo (Some "https://cdn.example/a"%string) (Some "A"%string)
                 (Some (IntSeconds 180)) None None in
  let extract_info : string → ExtractResult :=
    λ _, ExtractInfo (Some [Some first; None])
           (MkInfo None (Some "results"%string) None None None) in
  ∃ text entries info data filename,
    lookup_text None "some song" = Some text ∧
    extract_info text = ExtractInfo entries info ∧
    data = match entries with
           | Some (first :: _) => first
           | _ => Some info
           end ∧
    data = Some {| info_url := Some filename;
                   info_title := title (source_of_info first);
                   info_duration := duration (source_of_info first);
                   info_thumbnail := thumbnail (source_of_info first);
                   info_uploader := uploader (source_of_info first) |} ∧
    url (source_of_info first) = Some filename ∧
    (λ _ : string, true) filename = true.
Proof.
  apply (create_source_result None
           (λ _, ExtractInfo
                   (Some [Some (MkInfo (Some "https://cdn.example/a"%string)
                                  (Some "A"%string) (Some (IntSeconds 180))
                                  None None); None])
                   (MkInfo None (Some "results"%string) None None None))
           (λ _, true) "some song"
           (source_of_info (MkInfo (Some "https://cdn.example/a"%string)
                              (Some "A"%string) (Some (IntSeconds 180))
                              None None))).
  reflexivity.
Defined.

(** X22: a dictionary returned by [_get_spotify_track_info] comes from the
    answer of the Spotify client for the track id read off the link: it
    names the first artist only, and its duration is the whole seconds of
    [duration_ms], rounded down. Without an artist there is no
    dictionary. *)
Theorem get_spotify_track_info_result
    (spotify_client : option (string → option SpotifyTrack))
    (spotify_url : string) (track_info : TrackInfo) :
  _get_spotify_track_info spotify_client spotify_url = Some track_info →
  ∃ track_id track t others,
    spotify_track_id spotify_url = Some track_id ∧
    spotify_client = Some track ∧
    track track_id = Some t ∧
    sp_artists t = ti_artist track_info :: others ∧
    ti_name track_info = sp_name t ∧
    ti_album track_info = sp_album t ∧
    ti_external_url track_info = sp_external_url t ∧
    1000 * ti_duration track_info ≤ sp_duration_ms t
      < 1000 * ti_duration track_info + 1000.
Proof.
  unfold _get_spotify_track_info.
  destruct (spotify_track_id spotify_url) as [track_id|]; [|done].
  destruct spotify_client as [track|]; [|done].
  destruct (track track_id) as [t|] eqn:Ht; [|done].
  destruct (sp_artists t) as [|artist others] eqn:Ha; [done|].
  intros [= <-]. exists track_id, track, t, others. simpl.
  split_and!; try done.
  - pose proof (Z.mul_div_le (sp_duration_ms t) 1000). lia.
  - pose proof (Z.mod_pos_bound (sp_duration_ms t) 1000).
    pose proof (Z.div_mod (sp_duration_ms t) 1000). lia.
Qed.

Lemma get_spotify_track_info_result_witness :
  let t := MkSpotifyTrack "Song" ["Band"; "Guest"] "Album" 215999
             "https://open.spotify.com/track/abc" in
  let client : option (string → option SpotifyTrack) := Some (λ _, Some t) in
  let track_info :=
    MkTrackInfo "Song" "Band" "Album" 215 "https://open.spotify.com/track/abc" in
  ∃ track_id track t others,
    spotify_track_id "spotify:track:abc" = Some track_id ∧
    client = Some track ∧
    track track_id = Some t ∧
    sp_artists t = ti_artist track_info :: others ∧
    ti_name track_info = sp_name t ∧
    ti_album track_info = sp_album t ∧
    ti_external_url track_info = sp_external_url t ∧
    1000 * ti_duration track_info ≤ sp_duration_ms t
      < 1000 * ti_duration track_info + 1000.
Proof.
  apply (get_spotify_track_info_result
           (Some (λ _, Some (MkSpotifyTrack "Song" ["Band"; "Guest"] "Album"
                               215999 "https://open.spotify.com/track/abc")))
           "spotify:track:abc"
           (MkTrackInfo "Song" "Band" "Album" 215
              "https://open.spotify.com/track/abc")).
  reflexivity.
Defined.
